(** * xdsl.interactive.app : the interactive pipeline builder

    A shallow embedding of [src/xdsl/interactive/app.py].  The widgets of the
    Textual application are reduced to the text they hold; the two reactive
    variables [current_module] and [pass_pipeline] keep their watchers.  The
    compiler services the application imports ([MLContext], [Parser],
    [Printer], the pass and dialect registries) are the fields of the class
    [CompilerServices]: every theorem holds for all of them.  The [try] block
    is given twice, on values and on a store of the objects it makes and
    writes to, and the two are shown to agree. *)

From Stdlib Require Import String Ascii List Bool Lia Permutation Sorted.
Import ListNotations.
Open Scope string_scope.

(** ** Python strings *)

(** ["\n"] *)
Definition nl : string := String (ascii_of_nat 10) EmptyString.

(** [sep.join(items)] *)
Definition join (sep : string) (items : list string) : string :=
  String.concat sep items.

(** ** The body of a [try] block: a log of calls and a value or a raised
    exception *)

Module Exec.
Definition t (C E A : Type) : Type := (list C * (E + A))%type.

Definition ret {C E A} (a : A) : t C E A := ([], inr a).

Definition bind {C E A B} (m : t C E A) (f : A -> t C E B) : t C E B :=
  match m with
  | (l, inl e) => (l, inl e)
  | (l, inr a) => let (l', r) := f a in ((l ++ l')%list, r)
  end.

(** A call to a service that returns [a]. *)
Definition call {C E A} (c : C) (a : A) : t C E A := ([c], inr a).

(** A call to a service that may raise. *)
Definition call_fallible {C E A} (c : C) (r : E + A) : t C E A := ([c], r).

Definition log {C E A} (m : t C E A) : list C := fst m.
Definition result {C E A} (m : t C E A) : E + A := snd m.
End Exec.

Declare Scope exec_scope.
Delimit Scope exec_scope with exec.
Declare Scope store_scope.
Delimit Scope store_scope with store.
Notation "'let*' x ':=' m 'in' k" := (Exec.bind m (fun x => k))
  (at level 10, x name, m at level 200, k at level 200) : exec_scope.

(** ** The compiler services the application imports from [xdsl], and what
    it reads back from a text area of Textual *)

Class CompilerServices : Type := {
  (** [xdsl.ir.MLContext], [xdsl.ir.Dialect], [xdsl.dialects.builtin.ModuleOp] *)
  MLContext : Type;
  Dialect : Type;
  ModuleOp : Type;
  (** [Exception] *)
  Exn : Type;
  (** [type[ModulePass]], a pass class, and [ModulePass], an instance of one *)
  ModulePass : Type;
  PassInstance : Type;
  (** [!=] on pass classes, as the reactive [pass_pipeline] compares tuples *)
  ModulePass_eq_dec : forall p q : ModulePass, {p = q} + {p <> q};
  (** [MLContext(allow_unregistered)] *)
  MLContext_new : bool -> MLContext;
  (** [get_all_dialects()] *)
  get_all_dialects : list Dialect;
  (** [ctx.load_dialect(dialect)]: the context after the call *)
  load_dialect : MLContext -> Dialect -> MLContext;
  (** [Parser(ctx, input_text).parse_module()]: the context after the call,
      and the module or the exception raised *)
  parse_module : MLContext -> string -> MLContext * (Exn + ModuleOp);
  (** [get_all_passes()] *)
  get_all_passes : list ModulePass;
  (** [p.name] *)
  pass_name : ModulePass -> string;
  (** [p()] *)
  instantiate : ModulePass -> Exn + PassInstance;
  (** [p.apply(ctx, op)] works in place: the context and the module after the
      call, and the exception if one was raised *)
  ModulePass_apply :
    PassInstance -> MLContext -> ModuleOp -> (MLContext * ModuleOp) * option Exn;
  (** [Printer(stream).print(x)] followed by [stream.getvalue()]; the one
      routine takes a module or an exception *)
  Printer_print : Exn + ModuleOp -> string;
  (** Of Textual: [text_area.text] after [text_area.load_text(t)].  The widget
      keeps the lines of [t] and joins them again with one line separator, so
      the text it gives back is a function of [t], not always [t] *)
  TextArea_text : string -> string
}.

(** ** The application *)

Section InputApp.
Context {srv : CompilerServices}.

(** *** Calls made to the compiler services, with their arguments *)

Inductive Call : Type :=
| call_MLContext (allow_unregistered : bool)
| call_get_all_dialects
| call_load_dialect (ctx : MLContext) (dialect : Dialect)
| call_Parser (ctx : MLContext) (input : string)
| call_parse_module
| call_instantiate (p : ModulePass)
| call_apply (p : PassInstance) (ctx : MLContext) (op : ModuleOp).

Local Abbreviation Exec := (Exec.t Call Exn).

Local Open Scope exec_scope.

(** *** [ALL_PASSES = tuple(sorted((p.name, p) for p in get_all_passes()))]

    The pairs are ordered by name; [sorted] is stable, and so is the
    insertion below. *)

Fixpoint insert_sorted (x : string * ModulePass) (l : list (string * ModulePass))
  : list (string * ModulePass) :=
  match l with
  | [] => [x]
  | y :: rest =>
      if String.leb (fst x) (fst y) then x :: l else y :: insert_sorted x rest
  end.

Definition sorted (l : list (string * ModulePass)) : list (string * ModulePass) :=
  fold_right insert_sorted [] l.

Definition ALL_PASSES : list (string * ModulePass) :=
  sorted (map (fun p => (pass_name p, p)) get_all_passes).

(** *** State of the application *)

(** [reactive[ModuleOp | Exception | None]] *)
Inductive CurrentModule : Type :=
| CM_None
| CM_Exception (e : Exn)
| CM_ModuleOp (m : ModuleOp).

Record InputApp : Type := mkInputApp {
  current_module : CurrentModule;
  pass_pipeline : list ModulePass;
  input_text_area : string;        (* input_text_area.text *)
  output_text_area : string;       (* the text loaded in output_text_area *)
  selected_query_label : string;   (* text of the label *)
  pasteboard : option string;      (* last text handed to pyclip_copy *)
  dark : bool;
  exited : bool
}.

Definition with_current_module (self : InputApp) (v : CurrentModule) : InputApp :=
  mkInputApp v self.(pass_pipeline) self.(input_text_area) self.(output_text_area)
    self.(selected_query_label) self.(pasteboard) self.(dark) self.(exited).

Definition with_pass_pipeline (self : InputApp) (v : list ModulePass) : InputApp :=
  mkInputApp self.(current_module) v self.(input_text_area) self.(output_text_area)
    self.(selected_query_label) self.(pasteboard) self.(dark) self.(exited).

Definition with_input_text (self : InputApp) (v : string) : InputApp :=
  mkInputApp self.(current_module) self.(pass_pipeline) v self.(output_text_area)
    self.(selected_query_label) self.(pasteboard) self.(dark) self.(exited).

Definition with_output_text (self : InputApp) (v : string) : InputApp :=
  mkInputApp self.(current_module) self.(pass_pipeline) self.(input_text_area) v
    self.(selected_query_label) self.(pasteboard) self.(dark) self.(exited).

Definition with_label (self : InputApp) (v : string) : InputApp :=
  mkInputApp self.(current_module) self.(pass_pipeline) self.(input_text_area)
    self.(output_text_area) v self.(pasteboard) self.(dark) self.(exited).

Definition with_pasteboard (self : InputApp) (v : string) : InputApp :=
  mkInputApp self.(current_module) self.(pass_pipeline) self.(input_text_area)
    self.(output_text_area) self.(selected_query_label) (Some v) self.(dark)
    self.(exited).

Definition with_dark (self : InputApp) (v : bool) : InputApp :=
  mkInputApp self.(current_module) self.(pass_pipeline) self.(input_text_area)
    self.(output_text_area) self.(selected_query_label) self.(pasteboard) v
    self.(exited).

Definition with_exited (self : InputApp) (v : bool) : InputApp :=
  mkInputApp self.(current_module) self.(pass_pipeline) self.(input_text_area)
    self.(output_text_area) self.(selected_query_label) self.(pasteboard)
    self.(dark) v.

(** [__init__]: empty text areas, label [""], reactive defaults [None] and
    [()]; [App.dark] starts as [True] *)
Definition init : InputApp :=
  mkInputApp CM_None [] "" "" "" None true false.

(** *** [watch_current_module] *)

Definition watch_current_module (self : InputApp) : InputApp :=
  let output_text :=
    match self.(current_module) with
    | CM_None => "No input"
    | CM_Exception e => Printer_print (inl e)
    | CM_ModuleOp m => Printer_print (inr m)
    end in
  with_output_text self output_text.

(** Assignment to the reactive [current_module]: the watcher runs when the
    new value differs from the old one.  A module or an exception is a new
    object, which differs from every older value; [None] equals [None]. *)
Definition current_module_differs (old new : CurrentModule) : bool :=
  match old, new with
  | CM_None, CM_None => false
  | _, _ => true
  end.

Definition set_current_module (self : InputApp) (v : CurrentModule) : InputApp :=
  if current_module_differs self.(current_module) v
  then watch_current_module (with_current_module self v)
  else self.

(** *** [update_current_module] *)

(** [for dialect in get_all_dialects(): ctx.load_dialect(dialect)] *)
Fixpoint load_dialects (ctx : MLContext) (dialects : list Dialect) : Exec MLContext :=
  match dialects with
  | [] => Exec.ret ctx
  | dialect :: rest =>
      let* ctx' := Exec.call (call_load_dialect ctx dialect) (load_dialect ctx dialect) in
      load_dialects ctx' rest
  end.

(** [[p() for p in self.pass_pipeline]] *)
Fixpoint instantiate_all (passes : list ModulePass) : Exec (list PassInstance) :=
  match passes with
  | [] => Exec.ret []
  | p :: rest =>
      let* i := Exec.call_fallible (call_instantiate p) (instantiate p) in
      let* rest' := instantiate_all rest in
      Exec.ret (i :: rest')
  end.

(** [parser.parse_module()]: the parser holds the context it was built with;
    the call returns the module, and leaves the context as parsing changed
    it, or raises *)
Definition Parser_parse_module (parser : MLContext * string)
  : Exec (MLContext * ModuleOp) :=
  let (ctx, input) := parser in
  match parse_module ctx input with
  | (ctx', inr module) => ([call_parse_module], inr (ctx', module))
  | (_, inl e) => ([call_parse_module], inl e)
  end.

(** Modelled from the spec: [PipelinePass.apply] of [xdsl.passes], which is
    not part of the sources at hand.  The passes are applied to the module
    in place, in list order, and the first failure aborts the remaining
    ones.  The result keeps the context and the module as the last
    application left them, and the exception if one was raised. *)
Fixpoint PipelinePass_apply (passes : list PassInstance) (ctx : MLContext)
    (op : ModuleOp) : list Call * ((MLContext * ModuleOp) * option Exn) :=
  match passes with
  | [] => ([], ((ctx, op), None))
  | p :: rest =>
      match ModulePass_apply p ctx op with
      | (st, Some e) => ([call_apply p ctx op], (st, Some e))
      | ((ctx', op'), None) =>
          let (l, r) := PipelinePass_apply rest ctx' op' in
          (call_apply p ctx op :: l, r)
      end
  end.

(** [pipeline.apply(ctx, module)] inside the [try] block: the name [module]
    is bound to the object the passes worked on *)
Definition apply_in_place (passes : list PassInstance) (ctx : MLContext)
    (module : ModuleOp) : Exec ModuleOp :=
  match PipelinePass_apply passes ctx module with
  | (l, ((_, module'), None)) => (l, inr module')
  | (l, (_, Some e)) => (l, inl e)
  end.

(** The statements of the [try] block, up to the value assigned to
    [self.current_module] *)
Definition try_block (input_text : string) (pipeline_classes : list ModulePass)
  : Exec ModuleOp :=
  let* ctx := Exec.call (call_MLContext true) (MLContext_new true) in
  let* dialects := Exec.call call_get_all_dialects get_all_dialects in
  let* ctx := load_dialects ctx dialects in
  let* parser := Exec.call (call_Parser ctx input_text) (ctx, input_text) in
  let* parsed := Parser_parse_module parser in
  let (ctx, module) := parsed in
  let* pipeline := instantiate_all pipeline_classes in
  apply_in_place pipeline ctx module.

Definition update_current_module (self : InputApp) : list Call * InputApp :=
  let input_text := self.(input_text_area) in
  if input_text =? "" then
    ([], set_current_module self CM_None)
  else
    match try_block input_text self.(pass_pipeline) with
    | (l, inr module) => (l, set_current_module self (CM_ModuleOp module))
    | (l, inl e) => (l, set_current_module self (CM_Exception e))
    end.

(** *** [watch_pass_pipeline] *)

Definition watch_pass_pipeline (self : InputApp) : list Call * InputApp :=
  let new_passes :=
    nl ++ join (", " ++ nl) (map pass_name self.(pass_pipeline)) in
  let new_label := "xdsl-opt -p " ++ new_passes in
  update_current_module (with_label self new_label).

(** Assignment to the reactive [pass_pipeline]: the watcher runs when the new
    tuple differs from the old one. *)
Definition set_pass_pipeline (self : InputApp) (v : list ModulePass)
  : list Call * InputApp :=
  if list_eq_dec ModulePass_eq_dec self.(pass_pipeline) v
  then ([], self)
  else watch_pass_pipeline (with_pass_pipeline self v).

(** *** [update_pass_pipeline]; [selected_pass] is [event.item.name] *)

Fixpoint update_pass_pipeline_loop (self : InputApp) (selected_pass : string)
    (passes : list (string * ModulePass)) : list Call * InputApp :=
  match passes with
  | [] => ([], self)
  | (name, value) :: rest =>
      if name =? selected_pass
      then set_pass_pipeline self (self.(pass_pipeline) ++ [value])%list
      else update_pass_pipeline_loop self selected_pass rest
  end.

Definition update_pass_pipeline (self : InputApp) (selected_pass : string)
  : list Call * InputApp :=
  update_pass_pipeline_loop self selected_pass ALL_PASSES.

(** *** Buttons and key bindings *)

Definition action_toggle_dark (self : InputApp) : InputApp :=
  with_dark self (negb self.(dark)).

Definition action_quit_app (self : InputApp) : InputApp :=
  with_exited self true.

(** [input_text_area.clear()] empties the text area, which posts
    [TextArea.Changed] *)
Definition clear_input (self : InputApp) : list Call * InputApp :=
  update_current_module (with_input_text self "").

(** [output_text_area.text] is read back from the widget, which need not
    give the text it was loaded with *)
Definition copy_output (self : InputApp) : InputApp :=
  with_pasteboard self (TextArea_text self.(output_text_area)).

Definition copy_query (self : InputApp) : InputApp :=
  let selected_passes :=
    nl ++ join (", " ++ nl) (map pass_name self.(pass_pipeline)) in
  let query := "xdsl-opt -p " ++ selected_passes in
  with_pasteboard self query.

Definition clear_passes (self : InputApp) : list Call * InputApp :=
  set_pass_pipeline self [].

(** *** The messages the application handles *)

Inductive Event : Type :=
| ListView_Selected (name : string)
| TextArea_Changed (text : string)   (* the input now holds [text] *)
| Pressed_clear_input
| Pressed_copy_output
| Pressed_copy_query
| Pressed_clear_passes
| Key_d
| Key_q.

Definition handle (ev : Event) (self : InputApp) : list Call * InputApp :=
  match ev with
  | ListView_Selected name => update_pass_pipeline self name
  | TextArea_Changed text => update_current_module (with_input_text self text)
  | Pressed_clear_input => clear_input self
  | Pressed_copy_output => ([], copy_output self)
  | Pressed_copy_query => ([], copy_query self)
  | Pressed_clear_passes => clear_passes self
  | Key_d => ([], action_toggle_dark self)
  | Key_q => ([], action_quit_app self)
  end.

(** Messages are handled one at a time, each to completion. *)
Fixpoint run (evs : list Event) (self : InputApp) : list Call * InputApp :=
  match evs with
  | [] => ([], self)
  | ev :: rest =>
      let (l, self') := handle ev self in
      let (l', self'') := run rest self' in
      ((l ++ l')%list, self'')
  end.

(** When the application is mounted the watchers of both reactive variables
    run once on the initial values. *)
Definition mounted : InputApp :=
  snd (watch_pass_pipeline (watch_current_module init)).

Inductive reachable : InputApp -> Prop :=
| reachable_mounted : reachable mounted
| reachable_handle ev self : reachable self -> reachable (snd (handle ev self)).

(** *** [on_mount]: the entries of the list view

    [for n, _ in ALL_PASSES: self.passes_list_view.append(ListItem(Label(n), name=n))];
    an entry is kept by its name.  The rest of [on_mount] sets themes and
    border titles. *)

Fixpoint on_mount_loop (passes_list_view : list string)
    (passes : list (string * ModulePass)) : list string :=
  match passes with
  | [] => passes_list_view
  | (n, _) :: rest => on_mount_loop (passes_list_view ++ [n])%list rest
  end.

Definition on_mount_passes_list_view : list string :=
  on_mount_loop [] ALL_PASSES.

(** *** Notions the statements below use *)

(** The context a call builds: [MLContext(True)] with every dialect loaded *)
Definition loaded_context : MLContext :=
  fold_left load_dialect get_all_dialects (MLContext_new true).

Fixpoint load_calls (ctx : MLContext) (dialects : list Dialect) : list Call :=
  match dialects with
  | [] => []
  | dialect :: rest =>
      call_load_dialect ctx dialect :: load_calls (load_dialect ctx dialect) rest
  end.

(** The calls up to and including [parse_module()] *)
Definition setup_calls (input_text : string) : list Call :=
  ([call_MLContext true; call_get_all_dialects]
     ++ load_calls (MLContext_new true) get_all_dialects
     ++ [call_Parser loaded_context input_text; call_parse_module])%list.

Definition is_instantiate (c : Call) : bool :=
  match c with call_instantiate _ => true | _ => false end.

Definition is_apply (c : Call) : bool :=
  match c with call_apply _ _ _ => true | _ => false end.

(** The context and the module after [passes] worked on them in turn *)
Definition state_after (passes : list PassInstance) (st : MLContext * ModuleOp)
  : MLContext * ModuleOp :=
  fold_left (fun st p => fst (ModulePass_apply p (fst st) (snd st))) passes st.

(** The applications of [passes] in turn, each to the context and the module
    the one before left *)
Fixpoint apply_calls (passes : list PassInstance) (st : MLContext * ModuleOp)
  : list Call :=
  match passes with
  | [] => []
  | p :: rest =>
      call_apply p (fst st) (snd st)
        :: apply_calls rest (fst (ModulePass_apply p (fst st) (snd st)))
  end.

(** *** The objects of a call, in a store

    [MLContext(True)] and [parse_module()] make new objects; [load_dialect],
    the parser and the passes write to the objects they are handed.  The
    store keeps every context and every module ever made, those of earlier
    calls included; a reference is the position of its object.  A
    computation gives no result when it follows a reference to no object. *)

Record Store : Type := mkStore {
  contexts : list MLContext;
  modules : list ModuleOp
}.

Fixpoint list_update {A : Type} (l : list A) (i : nat) (v : A) : list A :=
  match l, i with
  | [], _ => []
  | _ :: rest, 0 => v :: rest
  | a :: rest, S i' => a :: list_update rest i' v
  end.

Definition StoreExec (A : Type) : Type :=
  Store -> option (Store * list Call * (Exn + A)).

Definition store_ret {A : Type} (a : A) : StoreExec A :=
  fun st => Some (st, [], inr a).

Definition store_bind {A B : Type} (m : StoreExec A) (f : A -> StoreExec B)
  : StoreExec B :=
  fun st =>
    match m st with
    | None => None
    | Some (st1, l1, inl e) => Some (st1, l1, inl e)
    | Some (st1, l1, inr a) =>
        match f a st1 with
        | None => None
        | Some (st2, l2, r) => Some (st2, (l1 ++ l2)%list, r)
        end
    end.

Notation "'let*' x ':=' m 'in' k" := (store_bind m (fun x => k))
  (at level 10, x name, m at level 200, k at level 200) : store_scope.

Local Open Scope store_scope.

(** [MLContext(allow_unregistered)]: a new context *)
Definition store_MLContext (allow_unregistered : bool) : StoreExec nat :=
  fun st =>
    Some (mkStore (contexts st ++ [MLContext_new allow_unregistered]) (modules st),
          [call_MLContext allow_unregistered],
          inr (length (contexts st))).

Definition store_get_all_dialects : StoreExec (list Dialect) :=
  fun st => Some (st, [call_get_all_dialects], inr get_all_dialects).

(** [ctx.load_dialect(dialect)] writes to the context *)
Definition store_load_dialect (ctx : nat) (dialect : Dialect) : StoreExec unit :=
  fun st =>
    match nth_error (contexts st) ctx with
    | None => None
    | Some c =>
        Some (mkStore (list_update (contexts st) ctx (load_dialect c dialect))
                (modules st),
              [call_load_dialect c dialect], inr tt)
    end.

Fixpoint store_load_dialects (ctx : nat) (dialects : list Dialect)
  : StoreExec unit :=
  match dialects with
  | [] => store_ret tt
  | dialect :: rest =>
      let* _ := store_load_dialect ctx dialect in
      store_load_dialects ctx rest
  end.

(** [Parser(ctx, input_text)] keeps the reference to the context *)
Definition store_Parser (ctx : nat) (input : string) : StoreExec (nat * string) :=
  fun st =>
    match nth_error (contexts st) ctx with
    | None => None
    | Some c => Some (st, [call_Parser c input], inr (ctx, input))
    end.

(** [parser.parse_module()] writes to the context and makes a new module, or
    raises *)
Definition store_parse_module (parser : nat * string) : StoreExec nat :=
  fun st =>
    let (ctx, input) := parser in
    match nth_error (contexts st) ctx with
    | None => None
    | Some c =>
        match parse_module c input with
        | (c', inr module) =>
            Some (mkStore (list_update (contexts st) ctx c') (modules st ++ [module]),
                  [call_parse_module], inr (length (modules st)))
        | (c', inl e) =>
            Some (mkStore (list_update (contexts st) ctx c') (modules st),
                  [call_parse_module], inl e)
        end
    end.

(** [[p() for p in self.pass_pipeline]] *)
Fixpoint store_instantiate_all (passes : list ModulePass)
  : StoreExec (list PassInstance) :=
  match passes with
  | [] => store_ret []
  | p :: rest =>
      let* i := (fun st => Some (st, [call_instantiate p], instantiate p)) in
      let* rest' := store_instantiate_all rest in
      store_ret (i :: rest')
  end.

(** [p.apply(ctx, op)] writes to the context and to the module, also when it
    raises *)
Definition store_ModulePass_apply (p : PassInstance) (ctx op : nat)
  : StoreExec unit :=
  fun st =>
    match nth_error (contexts st) ctx, nth_error (modules st) op with
    | Some c, Some m =>
        let (after, raised) := ModulePass_apply p c m in
        Some (mkStore (list_update (contexts st) ctx (fst after))
                (list_update (modules st) op (snd after)),
              [call_apply p c m],
              match raised with Some e => inl e | None => inr tt end)
    | _, _ => None
    end.

(** Modelled from the spec: [PipelinePass.apply] of [xdsl.passes], which is
    not part of the sources at hand: the passes in list order on the same
    two objects, up to the first that raises. *)
Fixpoint store_PipelinePass_apply (passes : list PassInstance) (ctx op : nat)
  : StoreExec unit :=
  match passes with
  | [] => store_ret tt
  | p :: rest =>
      let* _ := store_ModulePass_apply p ctx op in
      store_PipelinePass_apply rest ctx op
  end.

(** The statements of the [try] block; the value is the reference held by the
    name [module] *)
Definition store_try_block (input_text : string)
    (pipeline_classes : list ModulePass) : StoreExec nat :=
  let* ctx := store_MLContext true in
  let* dialects := store_get_all_dialects in
  let* _ := store_load_dialects ctx dialects in
  let* parser := store_Parser ctx input_text in
  let* module := store_parse_module parser in
  let* pipeline := store_instantiate_all pipeline_classes in
  let* _ := store_PipelinePass_apply pipeline ctx module in
  store_ret module.

(** [update_current_module] on a store.  The application keeps the module as
    it is when it is assigned. *)
Definition store_update_current_module (self : InputApp) (st : Store)
  : option (Store * (list Call * InputApp)) :=
  let input_text := self.(input_text_area) in
  if input_text =? "" then
    Some (st, ([], set_current_module self CM_None))
  else
    match store_try_block input_text self.(pass_pipeline) st with
    | None => None
    | Some (st', l, inr module) =>
        match nth_error (modules st') module with
        | None => None
        | Some m => Some (st', (l, set_current_module self (CM_ModuleOp m)))
        end
    | Some (st', l, inl e) =>
        Some (st', (l, set_current_module self (CM_Exception e)))
    end.

End InputApp.

(** ** A small instance of the services, to run the application on *)

Module Toy.

(** A module is the list of its lines; an exception is its message. *)
Inductive pass : Type := pass_A | pass_B | pass_fails | pass_needs_args.

Definition pass_eq_dec (p q : pass) : {p = q} + {p <> q}.
Proof. decide equality. Defined.

Definition name_of (p : pass) : string :=
  match p with
  | pass_A => "A"
  | pass_B => "B"
  | pass_fails => "fails"
  | pass_needs_args => "needs-args"
  end.

(** The empty text and the text ["bad"] do not parse; any other text is a
    one-line module. *)
Definition parse (ctx : list nat) (input : string)
  : list nat * (string + list string) :=
  if (input =? "") || (input =? "bad")
  then (ctx, inl "parse error")
  else (ctx, inr [input]).

Definition make (p : pass) : string + pass :=
  match p with
  | pass_needs_args => inl "missing argument"
  | _ => inr p
  end.

(** Each pass appends a line; the failing one does so before it raises. *)
Definition apply (p : pass) (ctx : list nat) (op : list string)
  : (list nat * list string) * option string :=
  match p with
  | pass_fails => ((ctx, op ++ ["half"])%list, Some "pass failed")
  | _ => ((ctx, op ++ [name_of p])%list, None)
  end.

Definition print (x : string + list string) : string :=
  match x with
  | inl e => e
  | inr m => join nl m
  end.

(** The widget of this instance joins the lines it keeps with line feeds:
    a carriage return followed by a line feed comes back as a line feed. *)
Fixpoint reread (t : string) : string :=
  match t with
  | EmptyString => EmptyString
  | String c rest =>
      match rest with
      | String c' _ =>
          if (Ascii.eqb c (ascii_of_nat 13) && Ascii.eqb c' (ascii_of_nat 10))%bool
          then reread rest
          else String c (reread rest)
      | EmptyString => String c EmptyString
      end
  end.

Definition services : CompilerServices := {|
  MLContext := list nat;
  Dialect := nat;
  ModuleOp := list string;
  Exn := string;
  ModulePass := pass;
  PassInstance := pass;
  ModulePass_eq_dec := pass_eq_dec;
  MLContext_new := fun _ => [];
  get_all_dialects := [1; 2];
  load_dialect := fun ctx d => (ctx ++ [d])%list;
  parse_module := parse;
  get_all_passes := [pass_fails; pass_B; pass_needs_args; pass_A];
  pass_name := name_of;
  instantiate := make;
  ModulePass_apply := apply;
  Printer_print := print;
  TextArea_text := reread
|}.

(** The application after the user typed [text] and selected [passes]. *)
Definition app (text : string) (passes : list pass) : @InputApp services :=
  @mkInputApp services CM_None passes text "" "" None false false.

End Toy.


(** ** Properties *)

Section Properties.
Context {srv : CompilerServices}.

Local Abbreviation Exec := (Exec.t Call Exn).

(** *** The reactive variables *)

Lemma current_module_set (self : InputApp) (v : CurrentModule) :
  current_module (set_current_module self v) = v.
Proof.
  unfold set_current_module.
  destruct (current_module self) eqn:Hold, v; simpl; auto.
Qed.

Lemma set_current_module_frame (self : InputApp) (v : CurrentModule) :
  pass_pipeline (set_current_module self v) = pass_pipeline self /\
  input_text_area (set_current_module self v) = input_text_area self /\
  selected_query_label (set_current_module self v) = selected_query_label self /\
  pasteboard (set_current_module self v) = pasteboard self.
Proof.
  unfold set_current_module.
  destruct (current_module_differs _ _); simpl; auto.
Qed.

Lemma update_current_module_frame (self : InputApp) :
  pass_pipeline (snd (update_current_module self)) = pass_pipeline self /\
  input_text_area (snd (update_current_module self)) = input_text_area self /\
  selected_query_label (snd (update_current_module self))
    = selected_query_label self /\
  pasteboard (snd (update_current_module self)) = pasteboard self.
Proof.
  unfold update_current_module.
  destruct (input_text_area self =? ""); simpl.
  - apply set_current_module_frame.
  - destruct (try_block _ _) as [l [e | m]]; simpl; apply set_current_module_frame.
Qed.

(** What [update_current_module] stores and which calls it makes depend on
    the input text and on the pipeline only. *)
Lemma update_current_module_result (self : InputApp) :
  current_module (snd (update_current_module self))
    = (if input_text_area self =? "" then CM_None
       else match Exec.result (try_block (input_text_area self) (pass_pipeline self)) with
            | inr module => CM_ModuleOp module
            | inl e => CM_Exception e
            end) /\
  fst (update_current_module self)
    = (if input_text_area self =? "" then []
       else Exec.log (try_block (input_text_area self) (pass_pipeline self))).
Proof.
  unfold update_current_module, Exec.result, Exec.log.
  destruct (input_text_area self =? ""); simpl.
  - split; [apply current_module_set | reflexivity].
  - destruct (try_block _ _) as [l [e | m]]; simpl;
      (split; [apply current_module_set | reflexivity]).
Qed.

(** *** The [try] block *)

Lemma load_dialects_spec (dialects : list Dialect) (ctx : MLContext) :
  load_dialects ctx dialects
    = (load_calls ctx dialects, inr (fold_left load_dialect dialects ctx)).
Proof.
  revert ctx. induction dialects as [| d rest IH]; intros ctx; simpl.
  - reflexivity.
  - rewrite IH. reflexivity.
Qed.

(** The block is straight-line code: set-up and parsing, then the
    instantiation of every pass, then their application. *)
Lemma try_block_unfold (input_text : string) (classes : list ModulePass) :
  try_block input_text classes
    = match parse_module loaded_context input_text with
      | (_, inl e) => (setup_calls input_text, inl e)
      | (ctx1, inr module) =>
          match instantiate_all classes with
          | (l1, inl e) => ((setup_calls input_text ++ l1)%list, inl e)
          | (l1, inr pipeline) =>
              ((setup_calls input_text ++ l1
                  ++ fst (apply_in_place pipeline ctx1 module))%list,
               snd (apply_in_place pipeline ctx1 module))
          end
      end.
Proof.
  unfold try_block, setup_calls, loaded_context. simpl.
  rewrite load_dialects_spec. simpl.
  destruct (parse_module _ input_text) as [ctx1 [e | module]]; simpl.
  - reflexivity.
  - destruct (instantiate_all classes) as [l1 [e | pipeline]]; simpl.
    + rewrite <- ?app_assoc. reflexivity.
    + destruct (apply_in_place pipeline ctx1 module) as [l2 r]; simpl.
      rewrite <- ?app_assoc. reflexivity.
Qed.

(** The calls of the instantiation are a prefix of the pipeline, in order;
    the whole of it when no class fails to instantiate. *)
Lemma instantiate_all_log (classes : list ModulePass) :
  exists k, k <= length classes /\
    Exec.log (instantiate_all classes) = map call_instantiate (firstn k classes) /\
    (forall pipeline, Exec.result (instantiate_all classes) = inr pipeline ->
       k = length classes).
Proof.
  induction classes as [| p rest (k & Hk & Hlog & Hall)]; simpl.
  - exists 0. repeat split; auto.
  - unfold Exec.log, Exec.result in *.
    destruct (instantiate p) as [e | i] eqn:Hp; simpl.
    + exists 1. repeat split; [lia | discriminate].
    + destruct (instantiate_all rest) as [l [e | rest']]; simpl in *.
      * exists (S k). repeat split; [lia | | discriminate].
        rewrite ?app_nil_r. simpl. f_equal. exact Hlog.
      * exists (S k). repeat split; [lia | |].
        -- rewrite ?app_nil_r. simpl. f_equal. exact Hlog.
        -- intros _ _. f_equal. eapply Hall. reflexivity.
Qed.

(** *** [PipelinePass.apply] *)

(** The applications are those of a prefix of the pipeline, in order, each on
    what the one before left; the whole pipeline when no pass raises, and then
    the module is the one all of them worked on. *)
Lemma PipelinePass_apply_log (pipeline : list PassInstance) (ctx : MLContext)
    (op : ModuleOp) :
  exists k, k <= length pipeline /\
    fst (PipelinePass_apply pipeline ctx op)
      = apply_calls (firstn k pipeline) (ctx, op) /\
    (snd (snd (PipelinePass_apply pipeline ctx op)) = None ->
       k = length pipeline /\
       fst (snd (PipelinePass_apply pipeline ctx op))
         = state_after pipeline (ctx, op)).
Proof.
  revert ctx op. induction pipeline as [| p rest IH]; intros ctx op; simpl.
  - exists 0. repeat split; auto.
  - destruct (ModulePass_apply p ctx op) as [[ctx' op'] [e | ]] eqn:Hp; simpl.
    + exists 1. repeat split; [lia | discriminate | discriminate].
    + destruct (IH ctx' op') as (k & Hk & Hlog & Hall).
      destruct (PipelinePass_apply rest ctx' op') as [l r]; simpl in *.
      exists (S k). split; [lia |]. split.
      * simpl. rewrite Hp. simpl. f_equal. exact Hlog.
      * intros Hnone. destruct (Hall Hnone) as [-> ->].
        unfold state_after. cbn [fold_left fst snd]. rewrite ?Hp. auto.
Qed.

(** Passes that all succeed, followed by more passes. *)
Lemma PipelinePass_apply_app (pre rest : list PassInstance)
    (ctx ctx' : MLContext) (op op' : ModuleOp) (l : list Call) :
  PipelinePass_apply pre ctx op = (l, ((ctx', op'), None)) ->
  PipelinePass_apply (pre ++ rest) ctx op
    = ((l ++ fst (PipelinePass_apply rest ctx' op'))%list,
       snd (PipelinePass_apply rest ctx' op')).
Proof.
  revert ctx op l. induction pre as [| p pre IH]; intros ctx op l; simpl.
  - intros H; injection H as <- <- <-. simpl.
    destruct (PipelinePass_apply rest ctx op); reflexivity.
  - destruct (ModulePass_apply p ctx op) as [[ctx1 op1] [e | ]]; [discriminate |].
    destruct (PipelinePass_apply pre ctx1 op1) as [l1 r1] eqn:Hpre.
    intros H; injection H as <- ->.
    rewrite (IH _ _ _ Hpre). reflexivity.
Qed.

Lemma PipelinePass_apply_calls_are_applications (pipeline : list PassInstance)
    (ctx : MLContext) (op : ModuleOp) :
  forallb is_apply (fst (PipelinePass_apply pipeline ctx op)) = true.
Proof.
  revert ctx op. induction pipeline as [| p rest IH]; intros ctx op; simpl.
  - reflexivity.
  - destruct (ModulePass_apply p ctx op) as [[ctx' op'] [e | ]]; simpl.
    + reflexivity.
    + specialize (IH ctx' op').
      destruct (PipelinePass_apply rest ctx' op'); simpl in *. exact IH.
Qed.

(** *** Which calls are where in the log *)

Lemma load_calls_no_pass_call (dialects : list Dialect) (ctx : MLContext) :
  filter is_instantiate (load_calls ctx dialects) = [] /\
  filter is_apply (load_calls ctx dialects) = [].
Proof.
  revert ctx. induction dialects as [| d rest IH]; intros ctx; simpl; auto.
Qed.

Lemma setup_calls_no_pass_call (input_text : string) :
  filter is_instantiate (setup_calls input_text) = [] /\
  filter is_apply (setup_calls input_text) = [].
Proof.
  unfold setup_calls. simpl. rewrite !filter_app. simpl.
  destruct (load_calls_no_pass_call get_all_dialects (MLContext_new true))
    as [-> ->].
  auto.
Qed.

Lemma instantiate_all_no_apply (classes : list ModulePass) :
  filter is_apply (Exec.log (instantiate_all classes)) = [].
Proof.
  destruct (instantiate_all_log classes) as (k & _ & -> & _).
  induction (firstn k classes); simpl; auto.
Qed.

Lemma filter_all {A : Type} (f : A -> bool) (l : list A) :
  forallb f l = true -> filter f l = l.
Proof.
  induction l as [| a l IH]; simpl; [reflexivity |].
  destruct (f a); simpl; [| discriminate].
  intros H. f_equal. auto.
Qed.

Lemma filter_none {A : Type} (f : A -> bool) (l : list A) :
  filter f l = [] -> existsb f l = false.
Proof.
  induction l as [| a l IH]; simpl; [reflexivity |].
  destruct (f a); simpl; [discriminate | auto].
Qed.

(** *** The result and the text shown *)

Lemma set_current_module_exception (self : InputApp) (e : Exn) :
  output_text_area (set_current_module self (CM_Exception e))
    = Printer_print (inl e).
Proof.
  unfold set_current_module. destruct (current_module self); reflexivity.
Qed.

Lemma set_current_module_module (self : InputApp) (m : ModuleOp) :
  output_text_area (set_current_module self (CM_ModuleOp m))
    = Printer_print (inr m).
Proof.
  unfold set_current_module. destruct (current_module self); reflexivity.
Qed.

(** With a non-empty input, the handler stores what the [try] block returned
    or the exception it raised, and shows it. *)
Lemma update_current_module_nonempty (self : InputApp) :
  input_text_area self <> "" ->
  update_current_module self
    = (Exec.log (try_block (input_text_area self) (pass_pipeline self)),
       set_current_module self
         match Exec.result (try_block (input_text_area self) (pass_pipeline self)) with
         | inr module => CM_ModuleOp module
         | inl e => CM_Exception e
         end).
Proof.
  intros Hne. unfold update_current_module, Exec.log, Exec.result.
  destruct (String.eqb_spec (input_text_area self) "") as [Heq | _];
    [contradiction |].
  destruct (try_block _ _) as [l [e | m]]; reflexivity.
Qed.

(** Every exception raised inside the [try] block ends up in
    [current_module], and its text in the output area. *)
Lemma exception_is_caught (self : InputApp) (e : Exn) :
  input_text_area self <> "" ->
  Exec.result (try_block (input_text_area self) (pass_pipeline self)) = inl e ->
  current_module (snd (update_current_module self)) = CM_Exception e /\
  output_text_area (snd (update_current_module self)) = Printer_print (inl e).
Proof.
  intros Hne He. rewrite (update_current_module_nonempty self Hne), He. simpl.
  split; [apply current_module_set | apply set_current_module_exception].
Qed.

(** *** The [try] block on a store *)

Lemma nth_error_app_last {A : Type} (l : list A) (a : A) :
  nth_error (l ++ [a]) (length l) = Some a.
Proof.
  induction l as [| b l IH]; simpl; auto.
Qed.

Lemma list_update_app_last {A : Type} (l : list A) (a v : A) :
  list_update (l ++ [a]) (length l) v = (l ++ [v])%list.
Proof.
  induction l as [| b l IH]; simpl; [reflexivity |]. rewrite IH. reflexivity.
Qed.

Lemma firstn_app_length {A : Type} (l l' : list A) :
  firstn (length l) (l ++ l') = l.
Proof.
  induction l as [| b l IH]; simpl; [reflexivity |]. rewrite IH. reflexivity.
Qed.

(** The dialects are loaded into the context made last, one after the
    other; no other object changes. *)
Lemma store_load_dialects_spec (dialects : list Dialect) (older : list MLContext)
    (c : MLContext) (ms : list ModuleOp) :
  store_load_dialects (length older) dialects (mkStore (older ++ [c]) ms)
    = Some (mkStore (older ++ [fold_left load_dialect dialects c]) ms,
            load_calls c dialects, inr tt).
Proof.
  revert c. induction dialects as [| d rest IH]; intros c; simpl.
  - reflexivity.
  - unfold store_bind at 1, store_load_dialect. cbn [contexts modules].
    rewrite nth_error_app_last, list_update_app_last, IH. reflexivity.
Qed.

Lemma store_instantiate_all_spec (classes : list ModulePass) (st : Store) :
  store_instantiate_all classes st
    = Some (st, Exec.log (instantiate_all classes),
            Exec.result (instantiate_all classes)).
Proof.
  induction classes as [| p rest IH]; simpl.
  - reflexivity.
  - unfold store_bind, Exec.log, Exec.result in *. simpl.
    destruct (instantiate p) as [e | i]; simpl; [reflexivity |].
    rewrite IH. destruct (instantiate_all rest) as [l [e | rest']]; simpl.
    + reflexivity.
    + rewrite app_nil_r. reflexivity.
Qed.

(** The passes write to the context and the module made last; no other
    object changes. *)
Lemma store_PipelinePass_apply_spec (pipeline : list PassInstance)
    (older : list MLContext) (c : MLContext) (ms : list ModuleOp) (m : ModuleOp) :
  store_PipelinePass_apply pipeline (length older) (length ms)
    (mkStore (older ++ [c]) (ms ++ [m]))
    = Some (mkStore (older ++ [fst (fst (snd (PipelinePass_apply pipeline c m)))])
              (ms ++ [snd (fst (snd (PipelinePass_apply pipeline c m)))]),
            fst (PipelinePass_apply pipeline c m),
            match snd (snd (PipelinePass_apply pipeline c m)) with
            | Some e => inl e
            | None => inr tt
            end).
Proof.
  revert c m. induction pipeline as [| p rest IH]; intros c m; simpl.
  - reflexivity.
  - unfold store_bind at 1, store_ModulePass_apply. cbn [contexts modules].
    rewrite !nth_error_app_last.
    destruct (ModulePass_apply p c m) as [[c' m'] [e | ]]; cbn [fst snd];
      rewrite !list_update_app_last.
    + reflexivity.
    + rewrite IH.
      destruct (PipelinePass_apply rest c' m') as [l [st r]].
      reflexivity.
Qed.

Lemma store_bind_returns {A B : Type} (m : StoreExec A) (f : A -> StoreExec B)
    (st st1 : Store) (l1 : list Call) (a : A) :
  m st = Some (st1, l1, inr a) ->
  store_bind m f st
    = match f a st1 with
      | None => None
      | Some (st2, l2, r) => Some (st2, (l1 ++ l2)%list, r)
      end.
Proof.
  intros H. unfold store_bind. rewrite H. reflexivity.
Qed.

Lemma store_bind_raises {A B : Type} (m : StoreExec A) (f : A -> StoreExec B)
    (st st1 : Store) (l1 : list Call) (e : Exn) :
  m st = Some (st1, l1, inl e) ->
  store_bind m f st = Some (st1, l1, inl e).
Proof.
  intros H. unfold store_bind. rewrite H. reflexivity.
Qed.

Lemma store_parse_module_spec (older : list MLContext) (c : MLContext)
    (ms : list ModuleOp) (input : string) :
  store_parse_module (length older, input) (mkStore (older ++ [c]) ms)
    = match parse_module c input with
      | (c', inr module) =>
          Some (mkStore (older ++ [c']) (ms ++ [module]),
                [call_parse_module], inr (length ms))
      | (c', inl e) =>
          Some (mkStore (older ++ [c']) ms, [call_parse_module], inl e)
      end.
Proof.
  unfold store_parse_module. cbn [contexts modules].
  rewrite nth_error_app_last.
  destruct (parse_module c input) as [c' [e | module]];
    rewrite list_update_app_last; reflexivity.
Qed.

(** On every store the [try] block makes the calls and gives the result it
    gives on values: the context and the module it works on are new, and it
    writes to no object that was there before. *)
Lemma store_try_block_spec (input_text : string) (classes : list ModulePass)
    (st : Store) :
  exists st',
    store_try_block input_text classes st
      = Some (st', Exec.log (try_block input_text classes),
              match Exec.result (try_block input_text classes) with
              | inl e => inl e
              | inr _ => inr (length (modules st))
              end) /\
    (forall module,
       Exec.result (try_block input_text classes) = inr module ->
       nth_error (modules st') (length (modules st)) = Some module) /\
    length (contexts st') = S (length (contexts st)) /\
    firstn (length (contexts st)) (contexts st') = contexts st /\
    firstn (length (modules st)) (modules st') = modules st.
Proof.
  assert (Hlength : forall (l : list MLContext) c, length (l ++ [c]) = S (length l))
    by (intros l c; rewrite length_app; simpl; lia).
  destruct st as [older ms]. rewrite try_block_unfold.
  unfold store_try_block, Exec.log, Exec.result, setup_calls.
  cbn [contexts modules].
  rewrite (store_bind_returns _ _ _
             (mkStore (older ++ [MLContext_new true]) ms)
             [call_MLContext true] (length older)) by reflexivity.
  rewrite (store_bind_returns _ _ _
             (mkStore (older ++ [MLContext_new true]) ms)
             [call_get_all_dialects] get_all_dialects) by reflexivity.
  rewrite (store_bind_returns _ _ _
             (mkStore (older ++ [loaded_context]) ms)
             (load_calls (MLContext_new true) get_all_dialects) tt)
    by apply store_load_dialects_spec.
  rewrite (store_bind_returns _ _ _
             (mkStore (older ++ [loaded_context]) ms)
             [call_Parser loaded_context input_text]
             (length older, input_text))
    by (unfold store_Parser; cbn [contexts]; rewrite nth_error_app_last;
        reflexivity).
  pose proof (store_parse_module_spec older loaded_context ms input_text)
    as Hparse.
  destruct (parse_module loaded_context input_text) as [ctx1 [e | module]].
  - rewrite (store_bind_raises _ _ _ _ _ _ Hparse).
    eexists. split; [cbn [app]; rewrite <- ?app_assoc; reflexivity |].
    cbn [contexts modules].
    split; [discriminate |]. split; [apply Hlength |].
    split; [apply firstn_app_length | apply firstn_all].
  - rewrite (store_bind_returns _ _ _ _ _ _ Hparse).
    pose proof (store_instantiate_all_spec classes
                  (mkStore (older ++ [ctx1]) (ms ++ [module]))) as Hinst.
    unfold Exec.log, Exec.result in Hinst.
    destruct (instantiate_all classes) as [l1 [e | pipeline]]; cbn [fst snd] in *.
    + rewrite (store_bind_raises _ _ _ _ _ _ Hinst).
      eexists. split; [cbn [app]; rewrite <- ?app_assoc; reflexivity |].
      cbn [contexts modules].
      split; [discriminate |]. split; [apply Hlength |].
      split; apply firstn_app_length.
    + rewrite (store_bind_returns _ _ _ _ _ _ Hinst).
      pose proof (store_PipelinePass_apply_spec pipeline older ctx1 ms module)
        as Happly.
      unfold apply_in_place.
      destruct (PipelinePass_apply pipeline ctx1 module)
        as [l2 [[ctx2 module2] [e | ]]]; cbn [fst snd] in *.
      * rewrite (store_bind_raises _ _ _ _ _ _ Happly).
        eexists. split; [cbn [app]; rewrite <- ?app_assoc; reflexivity |].
        cbn [contexts modules].
        split; [discriminate |]. split; [apply Hlength |].
      split; apply firstn_app_length.
      * rewrite (store_bind_returns _ _ _ _ _ _ Happly).
        unfold store_ret.
        eexists.
        split; [cbn [app]; rewrite <- ?app_assoc, ?app_nil_r; reflexivity |].
        cbn [contexts modules].
        split; [| split; [apply Hlength | split; apply firstn_app_length]].
        intros module' H. injection H as <-. apply nth_error_app_last.
Qed.

(** On every store [update_current_module] does what it does on values; with
    a non-empty input it makes one new context, and it leaves the objects of
    earlier calls as they were. *)
Lemma store_update_current_module_spec (self : InputApp) (st : Store) :
  exists st',
    store_update_current_module self st = Some (st', update_current_module self) /\
    (input_text_area self <> "" ->
     length (contexts st') = S (length (contexts st))) /\
    firstn (length (contexts st)) (contexts st') = contexts st /\
    firstn (length (modules st)) (modules st') = modules st.
Proof.
  unfold store_update_current_module, update_current_module.
  destruct (String.eqb_spec (input_text_area self) "") as [Heq | Hne].
  - exists st. split; [reflexivity |]. split; [contradiction |].
    split; apply firstn_all.
  - destruct (store_try_block_spec (input_text_area self) (pass_pipeline self) st)
      as (st' & -> & Hmodule & Hnew & Hcontexts & Hmodules).
    unfold Exec.log, Exec.result in *.
    destruct (try_block (input_text_area self) (pass_pipeline self))
      as [l [e | module]]; cbn [fst snd] in *.
    + exists st'. auto.
    + rewrite (Hmodule module eq_refl). exists st'. auto.
Qed.

(** A call, any other call, and the first call again: the third does what
    the first did. *)
Lemma store_update_current_module_again (self other : InputApp) (st : Store) :
  exists st1 st2 st3 r,
    store_update_current_module self st = Some (st1, r) /\
    store_update_current_module other st1
      = Some (st2, update_current_module other) /\
    store_update_current_module self st2 = Some (st3, r).
Proof.
  destruct (store_update_current_module_spec self st) as (st1 & H1 & _).
  destruct (store_update_current_module_spec other st1) as (st2 & H2 & _).
  destruct (store_update_current_module_spec self st2) as (st3 & H3 & _).
  exists st1, st2, st3, (update_current_module self). auto.
Qed.

(** *** The claims about [update_current_module] *)

(** C1.  Two calls of [update_current_module] with the same input text and
    the same pass pipeline, on any two stores, both return, make the same
    calls to the services and store the same [current_module].  The store of
    the second call may hold the contexts and modules that any earlier calls
    made and wrote to, and the two states of the application may differ in
    everything else: the call works on a context and a module of its own. *)
Theorem store_update_current_module_deterministic (self1 self2 : InputApp)
    (st1 st2 : Store) :
  input_text_area self1 = input_text_area self2 ->
  pass_pipeline self1 = pass_pipeline self2 ->
  exists st1' st2' l self1' self2',
    store_update_current_module self1 st1 = Some (st1', (l, self1')) /\
    store_update_current_module self2 st2 = Some (st2', (l, self2')) /\
    current_module self1' = current_module self2'.
Proof.
  intros Htext Hpipeline.
  destruct (store_update_current_module_spec self1 st1) as (st1' & H1 & _).
  destruct (store_update_current_module_spec self2 st2) as (st2' & H2 & _).
  destruct (update_current_module_result self1) as [Hcm1 Hlog1].
  destruct (update_current_module_result self2) as [Hcm2 Hlog2].
  rewrite <- Htext, <- Hpipeline in Hcm2, Hlog2.
  exists st1', st2', (fst (update_current_module self1)),
    (snd (update_current_module self1)), (snd (update_current_module self2)).
  split; [rewrite H1; destruct (update_current_module self1); reflexivity |].
  split; [| congruence].
  rewrite H2, Hlog1, <- Hlog2.
  destruct (update_current_module self2); reflexivity.
Qed.

(** On values, with the messages in between spelled out: after any messages,
    a call that finds the input text and the pipeline of an earlier call
    stores what that call stored. *)
Lemma update_current_module_after_run (self : InputApp) (evs : list Event) :
  input_text_area (snd (run evs (snd (update_current_module self))))
    = input_text_area self ->
  pass_pipeline (snd (run evs (snd (update_current_module self))))
    = pass_pipeline self ->
  current_module
    (snd (update_current_module (snd (run evs (snd (update_current_module self))))))
    = current_module (snd (update_current_module self)).
Proof.
  intros Htext Hpipeline.
  destruct (update_current_module_result
              (snd (run evs (snd (update_current_module self))))) as [-> _].
  destruct (update_current_module_result self) as [-> _].
  rewrite Htext, Hpipeline. reflexivity.
Qed.

(** C3.  [current_module] is [None] after the call exactly when the input
    text is empty, whatever the pipeline; with an empty input no service is
    called at all, the parser included. *)
Theorem current_module_None_iff_input_empty (self : InputApp) :
  (current_module (snd (update_current_module self)) = CM_None
     <-> input_text_area self = "") /\
  fst (update_current_module (with_input_text self "")) = [] /\
  current_module (snd (update_current_module (with_input_text self ""))) = CM_None.
Proof.
  split; [| split].
  - destruct (update_current_module_result self) as [-> _].
    destruct (String.eqb_spec (input_text_area self) "") as [Heq | Hne].
    + tauto.
    + split; [| contradiction].
      destruct (Exec.result _); discriminate.
  - reflexivity.
  - unfold update_current_module. simpl. apply current_module_set.
Qed.

(** C4.  When the non-empty input does not parse, [current_module] is the
    exception of the parser, and the calls made are those up to
    [parse_module()]: no pass is instantiated and none is applied. *)
Theorem parse_failure_runs_no_pass (self : InputApp) (ctx' : MLContext) (e : Exn) :
  input_text_area self <> "" ->
  parse_module loaded_context (input_text_area self) = (ctx', inl e) ->
  current_module (snd (update_current_module self)) = CM_Exception e /\
  fst (update_current_module self) = setup_calls (input_text_area self) /\
  existsb is_instantiate (fst (update_current_module self)) = false /\
  existsb is_apply (fst (update_current_module self)) = false.
Proof.
  intros Hne Hparse.
  assert (Htry : try_block (input_text_area self) (pass_pipeline self)
                 = (setup_calls (input_text_area self), inl e)).
  { rewrite try_block_unfold, Hparse. reflexivity. }
  rewrite (update_current_module_nonempty self Hne), Htry. simpl.
  destruct (setup_calls_no_pass_call (input_text_area self)) as [Hi Ha].
  repeat split; auto using current_module_set, filter_none.
Qed.

(** C2.  When the input parses, the passes are instantiated, the passes
    [pre] succeed and the next pass [p] raises [e]: [current_module] is the
    exception [e] and the output area shows its text, not the module the
    passes [pre] and [p] left half transformed; the applications made are
    those of [pre] and of [p], none of the passes [post] after it.  The
    handler returns a state of the application: the exception does not leave
    it. *)
Theorem failing_pass_gives_exception (self : InputApp)
    (ctx1 ctx2 ctx3 : MLContext) (module module2 module3 : ModuleOp)
    (pre post : list PassInstance) (p : PassInstance) (e : Exn) (l : list Call) :
  input_text_area self <> "" ->
  parse_module loaded_context (input_text_area self) = (ctx1, inr module) ->
  Exec.result (instantiate_all (pass_pipeline self)) = inr (pre ++ p :: post)%list ->
  PipelinePass_apply pre ctx1 module = (l, ((ctx2, module2), None)) ->
  ModulePass_apply p ctx2 module2 = ((ctx3, module3), Some e) ->
  current_module (snd (update_current_module self)) = CM_Exception e /\
  output_text_area (snd (update_current_module self)) = Printer_print (inl e) /\
  filter is_apply (fst (update_current_module self))
    = (l ++ [call_apply p ctx2 module2])%list.
Proof.
  intros Hne Hparse Hinst Hpre Hp.
  assert (Happly : PipelinePass_apply (pre ++ p :: post) ctx1 module
                   = ((l ++ [call_apply p ctx2 module2])%list,
                      ((ctx3, module3), Some e))).
  { rewrite (PipelinePass_apply_app _ _ _ _ _ _ _ Hpre). simpl. rewrite Hp.
    reflexivity. }
  assert (Htry : try_block (input_text_area self) (pass_pipeline self)
                 = ((setup_calls (input_text_area self)
                       ++ Exec.log (instantiate_all (pass_pipeline self))
                       ++ l ++ [call_apply p ctx2 module2])%list, inl e)).
  { rewrite try_block_unfold, Hparse. unfold Exec.result, Exec.log in *.
    destruct (instantiate_all (pass_pipeline self)) as [l1 r]. simpl in Hinst.
    subst r. unfold apply_in_place. rewrite Happly. reflexivity. }
  assert (Hcaught := exception_is_caught self e Hne).
  rewrite Htry in Hcaught. destruct (Hcaught eq_refl) as [Hcm Hout].
  split; [exact Hcm |]. split; [exact Hout |].
  rewrite (update_current_module_nonempty self Hne), Htry.
  unfold Exec.log at 1. cbn [fst].
  rewrite !filter_app.
  destruct (setup_calls_no_pass_call (input_text_area self)) as [_ ->].
  rewrite instantiate_all_no_apply. cbn [app].
  rewrite <- filter_app. apply filter_all.
  generalize (PipelinePass_apply_calls_are_applications (pre ++ p :: post) ctx1 module).
  rewrite Happly. simpl. auto.
Qed.

Lemma instantiate_all_failure (pre post : list ModulePass) (p : ModulePass)
    (instances : list PassInstance) (e : Exn) :
  Exec.result (instantiate_all pre) = inr instances ->
  instantiate p = inl e ->
  instantiate_all (pre ++ p :: post)
    = (map call_instantiate (pre ++ [p]), inl e).
Proof.
  revert instances. induction pre as [| q pre IH]; intros instances; simpl.
  - intros _ Hp. rewrite Hp. reflexivity.
  - unfold Exec.result in *.
    destruct (instantiate q) as [e' | i]; simpl; [discriminate |].
    destruct (instantiate_all pre) as [l [e' | rest]] eqn:Hpre; simpl;
      [discriminate |].
    intros _ Hp. rewrite (IH rest eq_refl Hp). reflexivity.
Qed.

Lemma instantiate_all_raises (classes : list ModulePass) (e : Exn) :
  Exec.result (instantiate_all classes) = inl e ->
  exists pre p post instances,
    classes = (pre ++ p :: post)%list /\
    Exec.result (instantiate_all pre) = inr instances /\
    instantiate p = inl e.
Proof.
  induction classes as [| q rest IH]; unfold Exec.result in *; simpl.
  - discriminate.
  - destruct (instantiate q) as [e' | i] eqn:Hq; simpl.
    + intros H; injection H as <-. exists [], q, rest, []. auto.
    + destruct (instantiate_all rest) as [l [e' | rest']]; simpl; [| discriminate].
      intros H; injection H as <-.
      destruct (IH eq_refl) as (pre & p & post & instances & -> & Hpre & Hp).
      exists (q :: pre), p, post, (i :: instances). simpl.
      rewrite Hq. simpl. destruct (instantiate_all pre) as [l' r']. simpl in *.
      subst r'. auto.
Qed.

Lemma apply_calls_app (pre rest : list PassInstance) (st : MLContext * ModuleOp) :
  apply_calls (pre ++ rest) st
    = (apply_calls pre st ++ apply_calls rest (state_after pre st))%list.
Proof.
  revert st. induction pre as [| p pre IH]; intros st; simpl.
  - reflexivity.
  - rewrite IH. reflexivity.
Qed.

(** Passes that all succeed: their applications, and what they leave. *)
Lemma PipelinePass_apply_succeeds (pipeline : list PassInstance)
    (ctx : MLContext) (op : ModuleOp) :
  snd (snd (PipelinePass_apply pipeline ctx op)) = None ->
  PipelinePass_apply pipeline ctx op
    = (apply_calls pipeline (ctx, op), (state_after pipeline (ctx, op), None)).
Proof.
  intros Hnone.
  destruct (PipelinePass_apply_log pipeline ctx op) as (k & _ & Hlog & Hall).
  destruct (Hall Hnone) as [-> Hstate]. rewrite firstn_all in Hlog.
  destruct (PipelinePass_apply pipeline ctx op) as [l [st r]]. simpl in *.
  subst. reflexivity.
Qed.

(** The first pass that raises: the passes before it succeeded, and its
    application is the last. *)
Lemma PipelinePass_apply_raises (pipeline : list PassInstance)
    (ctx : MLContext) (op : ModuleOp) (e : Exn) :
  snd (snd (PipelinePass_apply pipeline ctx op)) = Some e ->
  exists pre p post,
    pipeline = (pre ++ p :: post)%list /\
    snd (snd (PipelinePass_apply pre ctx op)) = None /\
    snd (ModulePass_apply p (fst (state_after pre (ctx, op)))
           (snd (state_after pre (ctx, op)))) = Some e /\
    fst (PipelinePass_apply pipeline ctx op)
      = apply_calls (pre ++ [p]) (ctx, op).
Proof.
  revert ctx op. induction pipeline as [| q rest IH]; intros ctx op; simpl.
  - discriminate.
  - destruct (ModulePass_apply q ctx op) as [[ctx' op'] [e' | ]] eqn:Hq; simpl.
    + intros H; injection H as <-. exists [], q, rest. simpl.
      rewrite Hq. auto.
    + specialize (IH ctx' op').
      destruct (PipelinePass_apply rest ctx' op') as [l r] eqn:Hrest. simpl.
      intros He. destruct (IH He) as (pre & p & post & -> & Hpre & Hp & Hlog).
      exists (q :: pre), p, post. simpl. rewrite Hq. simpl.
      destruct (PipelinePass_apply pre ctx' op') as [l' r']. simpl in *.
      repeat split; auto. f_equal. exact Hlog.
Qed.

(** C5, as amended.  Every call with a non-empty input starts with a new
    context, loads every dialect into it and hands it to the parser: nothing
    of an earlier call is in it.  What follows goes by the first statement
    that raises.  When the parser raises, nothing is instantiated.  When the
    input parses, the pass classes are instantiated in list order before any
    pass is applied: all of them, or those up to the first that raises, and
    then no pass is applied.  When all are instantiated, the instances are
    applied in list order, each to the context and the module the one before
    left: all of them, and [current_module] is the module they all worked
    on, or those up to the first that raises.  Whatever raises ends up in
    [current_module]. *)
Theorem fresh_context_then_passes_in_order (self : InputApp) :
  input_text_area self <> "" ->
  (forall st, exists st',
     store_update_current_module self st = Some (st', update_current_module self) /\
     length (contexts st') = S (length (contexts st)) /\
     firstn (length (contexts st)) (contexts st') = contexts st /\
     firstn (length (modules st)) (modules st') = modules st) /\
  match parse_module loaded_context (input_text_area self) with
  | (_, inl e) =>
      fst (update_current_module self) = setup_calls (input_text_area self) /\
      current_module (snd (update_current_module self)) = CM_Exception e
  | (ctx1, inr module) =>
      match Exec.result (instantiate_all (pass_pipeline self)) with
      | inl e =>
          exists pre p post instances,
            pass_pipeline self = (pre ++ p :: post)%list /\
            Exec.result (instantiate_all pre) = inr instances /\
            instantiate p = inl e /\
            fst (update_current_module self)
              = (setup_calls (input_text_area self)
                   ++ map call_instantiate (pre ++ [p]))%list /\
            current_module (snd (update_current_module self)) = CM_Exception e
      | inr pipeline =>
          match snd (snd (PipelinePass_apply pipeline ctx1 module)) with
          | Some e =>
              exists pre p post,
                pipeline = (pre ++ p :: post)%list /\
                snd (snd (PipelinePass_apply pre ctx1 module)) = None /\
                snd (ModulePass_apply p
                       (fst (state_after pre (ctx1, module)))
                       (snd (state_after pre (ctx1, module)))) = Some e /\
                fst (update_current_module self)
                  = (setup_calls (input_text_area self)
                       ++ map call_instantiate (pass_pipeline self)
                       ++ apply_calls (pre ++ [p]) (ctx1, module))%list /\
                current_module (snd (update_current_module self))
                  = CM_Exception e
          | None =>
              fst (update_current_module self)
                = (setup_calls (input_text_area self)
                     ++ map call_instantiate (pass_pipeline self)
                     ++ apply_calls pipeline (ctx1, module))%list /\
              current_module (snd (update_current_module self))
                = CM_ModuleOp (snd (state_after pipeline (ctx1, module)))
          end
      end
  end.
Proof.
  intros Hne. split.
  { intros st.
    destruct (store_update_current_module_spec self st)
      as (st' & Hrun & Hnew & Hcontexts & Hmodules).
    exists st'. auto. }
  rewrite (update_current_module_nonempty self Hne).
  cbn [fst snd]. rewrite current_module_set.
  rewrite try_block_unfold. unfold Exec.log, Exec.result.
  destruct (parse_module loaded_context (input_text_area self))
    as [ctx1 [e | module]] eqn:Hparse.
  - auto.
  - destruct (instantiate_all (pass_pipeline self)) as [l1 [e | pipeline]] eqn:Hinst;
      cbn [fst snd].
    + destruct (instantiate_all_raises (pass_pipeline self) e)
        as (pre & p & post & instances & Hpipeline & Hpre & Hp).
      { unfold Exec.result. rewrite Hinst. reflexivity. }
      exists pre, p, post, instances.
      rewrite Hpipeline in Hinst.
      rewrite (instantiate_all_failure pre post p instances e Hpre Hp) in Hinst.
      injection Hinst as <-. auto.
    + assert (Hl1 : l1 = map call_instantiate (pass_pipeline self)).
      { destruct (instantiate_all_log (pass_pipeline self)) as (k & _ & Hlog & Hall).
        unfold Exec.log, Exec.result in *. rewrite Hinst in *. simpl in *.
        rewrite (Hall pipeline eq_refl), firstn_all in Hlog. exact Hlog. }
      subst l1. unfold apply_in_place.
      destruct (snd (snd (PipelinePass_apply pipeline ctx1 module)))
        as [e | ] eqn:Hresult.
      * destruct (PipelinePass_apply_raises pipeline ctx1 module e Hresult)
          as (pre & p & post & Hpipeline & Hpre & Hp & Hlog).
        exists pre, p, post.
        destruct (PipelinePass_apply pipeline ctx1 module) as [l2 [[ctx2 module2] r]].
        cbn [fst snd] in *. subst r l2. auto.
      * rewrite (PipelinePass_apply_succeeds pipeline ctx1 module Hresult).
        destruct (state_after pipeline (ctx1, module)) as [ctx2 module2].
        simpl. auto.
Qed.

(** C6.  With an input that parses (the handler hands the parser a non-empty
    text only) and no pass selected, [current_module] is the module the
    parser returned, the output area shows its text, and the calls made are
    those up to [parse_module()]: nothing touched the module. *)
Theorem empty_pipeline_keeps_parsed_module (self : InputApp) (ctx1 : MLContext)
    (module : ModuleOp) :
  input_text_area self <> "" ->
  pass_pipeline self = [] ->
  parse_module loaded_context (input_text_area self) = (ctx1, inr module) ->
  current_module (snd (update_current_module self)) = CM_ModuleOp module /\
  output_text_area (snd (update_current_module self)) = Printer_print (inr module) /\
  fst (update_current_module self) = setup_calls (input_text_area self).
Proof.
  intros Hne Hempty Hparse.
  rewrite (update_current_module_nonempty self Hne).
  rewrite try_block_unfold, Hparse, Hempty. simpl.
  rewrite app_nil_r.
  repeat split; auto using current_module_set, set_current_module_module.
Qed.

(** *** The claims about the texts shown *)

(** C7.  [watch_current_module] shows ["No input"] for [None], and for an
    exception and for a module alike what [Printer.print] writes for it; the
    application as mounted, with no input and no pass, shows ["No input"]. *)
Theorem watch_current_module_output (self : InputApp) :
  output_text_area (watch_current_module (with_current_module self CM_None))
    = "No input" /\
  output_text_area mounted = "No input" /\
  (forall e : Exn,
     output_text_area (watch_current_module (with_current_module self (CM_Exception e)))
       = Printer_print (inl e)) /\
  (forall m : ModuleOp,
     output_text_area (watch_current_module (with_current_module self (CM_ModuleOp m)))
       = Printer_print (inr m)).
Proof.
  repeat split.
Qed.

(** *** The pass pipeline and its label *)

Lemma insert_sorted_In (x y : string * ModulePass) (l : list (string * ModulePass)) :
  In y (insert_sorted x l) <-> y = x \/ In y l.
Proof.
  induction l as [| z l IH]; simpl.
  - intuition auto.
  - destruct (String.leb (fst x) (fst z)); simpl; [intuition auto |].
    rewrite IH. intuition auto.
Qed.

Lemma sorted_In (y : string * ModulePass) (l : list (string * ModulePass)) :
  In y (sorted l) <-> In y l.
Proof.
  induction l as [| x l IH]; simpl; [tauto |].
  rewrite insert_sorted_In, IH. intuition auto.
Qed.

(** An entry of [ALL_PASSES] is a pass class of [get_all_passes()] under its
    own name. *)
Lemma ALL_PASSES_In (name : string) (value : ModulePass) :
  In (name, value) ALL_PASSES <-> In value get_all_passes /\ name = pass_name value.
Proof.
  unfold ALL_PASSES. rewrite sorted_In, in_map_iff. split.
  - intros (p & Heq & Hin). injection Heq as <- <-. auto.
  - intros [Hin ->]. exists value. auto.
Qed.

Lemma watch_pass_pipeline_frame (self : InputApp) :
  pass_pipeline (snd (watch_pass_pipeline self)) = pass_pipeline self /\
  input_text_area (snd (watch_pass_pipeline self)) = input_text_area self /\
  selected_query_label (snd (watch_pass_pipeline self))
    = "xdsl-opt -p " ++ nl ++ join (", " ++ nl) (map pass_name (pass_pipeline self)) /\
  pasteboard (snd (watch_pass_pipeline self)) = pasteboard self.
Proof.
  unfold watch_pass_pipeline.
  destruct (update_current_module_frame
              (with_label self
                 ("xdsl-opt -p " ++ nl
                    ++ join (", " ++ nl) (map pass_name (pass_pipeline self)))))
    as (-> & -> & -> & ->).
  repeat split.
Qed.

Lemma set_pass_pipeline_pipeline (self : InputApp) (v : list ModulePass) :
  pass_pipeline (snd (set_pass_pipeline self v)) = v.
Proof.
  unfold set_pass_pipeline.
  destruct (list_eq_dec ModulePass_eq_dec (pass_pipeline self) v) as [Heq | Hne].
  - exact Heq.
  - destruct (watch_pass_pipeline_frame (with_pass_pipeline self v)) as [-> _].
    reflexivity.
Qed.

(** The loop of [update_pass_pipeline] appends the first entry under the
    selected name, and leaves the pipeline alone when there is none. *)
Lemma update_pass_pipeline_loop_pipeline (self : InputApp) (selected_pass : string)
    (passes : list (string * ModulePass)) :
  (In selected_pass (map fst passes) ->
   exists value, In (selected_pass, value) passes /\
     pass_pipeline (snd (update_pass_pipeline_loop self selected_pass passes))
       = (pass_pipeline self ++ [value])%list) /\
  (~ In selected_pass (map fst passes) ->
   pass_pipeline (snd (update_pass_pipeline_loop self selected_pass passes))
     = pass_pipeline self).
Proof.
  induction passes as [| [name value] rest [IHin IHout]]; simpl.
  - split; [contradiction | reflexivity].
  - destruct (String.eqb_spec name selected_pass) as [-> | Hne].
    + split.
      * intros _. exists value. split; [auto |]. apply set_pass_pipeline_pipeline.
      * intros H. exfalso. apply H. auto.
    + split.
      * intros [Heq | Hin]; [contradiction |].
        destruct (IHin Hin) as (v & Hv & Hpipeline). exists v. auto.
      * intros H. apply IHout. intros Hin. apply H. auto.
Qed.

Lemma handle_pipeline (ev : Event) (self : InputApp) :
  pass_pipeline (snd (handle ev self)) = pass_pipeline self \/
  (exists value, In value get_all_passes /\
     pass_pipeline (snd (handle ev self)) = (pass_pipeline self ++ [value])%list) \/
  (ev = Pressed_clear_passes /\ pass_pipeline (snd (handle ev self)) = []).
Proof.
  destruct ev as [name | text | | | | | |]; simpl.
  - unfold update_pass_pipeline.
    destruct (update_pass_pipeline_loop_pipeline self name ALL_PASSES) as [Hin Hout].
    destruct (in_dec string_dec name (map fst ALL_PASSES)) as [H | H].
    + right; left. destruct (Hin H) as (value & Hvalue & Hpipeline).
      exists value. split; [| exact Hpipeline].
      apply ALL_PASSES_In in Hvalue. tauto.
    + left. auto.
  - left. apply (update_current_module_frame (with_input_text self text)).
  - left. apply (update_current_module_frame (with_input_text self "")).
  - left. reflexivity.
  - left. reflexivity.
  - right; right. split; [reflexivity | apply set_pass_pipeline_pipeline].
  - left. reflexivity.
  - left. reflexivity.
Qed.

Lemma run_app (evs1 evs2 : list Event) (self : InputApp) :
  snd (run (evs1 ++ evs2) self) = snd (run evs2 (snd (run evs1 self))).
Proof.
  revert self. induction evs1 as [| ev evs1 IH]; intros self; simpl.
  - reflexivity.
  - destruct (handle ev self) as [l self']. specialize (IH self').
    destruct (run (evs1 ++ evs2) self') as [l1 s1].
    destruct (run evs1 self') as [l2 s2]. simpl in *. exact IH.
Qed.

(** The text [watch_current_module] shows for a value of [current_module],
    and the text [watch_pass_pipeline] puts in the label for a pipeline. *)
Local Abbreviation shown cm :=
  (match cm with
   | CM_None => "No input"
   | CM_Exception e => Printer_print (inl e)
   | CM_ModuleOp m => Printer_print (inr m)
   end).
Local Abbreviation query pipeline :=
  ("xdsl-opt -p " ++ nl ++ join (", " ++ nl) (map pass_name pipeline)).

Lemma set_current_module_shown (self : InputApp) (v : CurrentModule) :
  output_text_area self = shown (current_module self) ->
  output_text_area (set_current_module self v)
    = shown (current_module (set_current_module self v)).
Proof.
  intros Hs. unfold set_current_module.
  destruct (current_module self) eqn:Hcm, v; simpl; try reflexivity.
  rewrite Hs, Hcm. reflexivity.
Qed.

Lemma update_current_module_shown (self : InputApp) :
  output_text_area self = shown (current_module self) ->
  output_text_area (snd (update_current_module self))
    = shown (current_module (snd (update_current_module self))).
Proof.
  intros Hs. unfold update_current_module.
  destruct (input_text_area self =? ""); simpl.
  - apply set_current_module_shown, Hs.
  - destruct (try_block _ _) as [l [e | m]]; simpl;
      apply set_current_module_shown, Hs.
Qed.

Lemma set_pass_pipeline_views (self : InputApp) (v : list ModulePass) :
  selected_query_label self = query (pass_pipeline self) ->
  output_text_area self = shown (current_module self) ->
  selected_query_label (snd (set_pass_pipeline self v))
    = query (pass_pipeline (snd (set_pass_pipeline self v))) /\
  output_text_area (snd (set_pass_pipeline self v))
    = shown (current_module (snd (set_pass_pipeline self v))).
Proof.
  intros Hlabel Hout. unfold set_pass_pipeline.
  destruct (list_eq_dec ModulePass_eq_dec (pass_pipeline self) v); simpl; [auto |].
  destruct (watch_pass_pipeline_frame (with_pass_pipeline self v))
    as (-> & _ & -> & _).
  split; [reflexivity |].
  unfold watch_pass_pipeline. apply update_current_module_shown. exact Hout.
Qed.

(** In every state the application reaches, the label shows the query of the
    current pipeline, and the output area the current module. *)
Lemma reachable_views (self : InputApp) :
  reachable self ->
  selected_query_label self = query (pass_pipeline self) /\
  output_text_area self = shown (current_module self).
Proof.
  induction 1 as [| ev self Hreach [IHlabel IHout]].
  - unfold mounted.
    destruct (watch_pass_pipeline_frame (watch_current_module init))
      as (-> & _ & -> & _).
    split; [reflexivity |].
    unfold watch_pass_pipeline. apply update_current_module_shown. reflexivity.
  - destruct ev as [name | text | | | | | |]; cbn [handle snd].
    + unfold update_pass_pipeline.
      induction ALL_PASSES as [| [n v] rest IH]; simpl; [auto |].
      destruct (n =? name); [apply set_pass_pipeline_views |]; auto.
    + destruct (update_current_module_frame (with_input_text self text))
        as (-> & _ & -> & _).
      split; [exact IHlabel | apply update_current_module_shown; exact IHout].
    + unfold clear_input.
      destruct (update_current_module_frame (with_input_text self ""))
        as (-> & _ & -> & _).
      split; [exact IHlabel | apply update_current_module_shown; exact IHout].
    + auto.
    + auto.
    + apply set_pass_pipeline_views; auto.
    + auto.
    + auto.
Qed.

(** C8, as amended.  The label [watch_pass_pipeline] sets is
    ["xdsl-opt -p "], a line break, and the names of the passes of the
    pipeline joined by [", "] and a line break, in the order of the pipeline
    and with its repetitions; for the pipeline [a, b, a] the names are those
    of [a], [b] and [a] in that order. *)
Theorem watch_pass_pipeline_label (self : InputApp) (a b : ModulePass) :
  selected_query_label (snd (watch_pass_pipeline self))
    = "xdsl-opt -p " ++ nl ++ join (", " ++ nl) (map pass_name (pass_pipeline self)) /\
  selected_query_label (snd (watch_pass_pipeline (with_pass_pipeline self [a; b; a])))
    = "xdsl-opt -p " ++ nl ++ pass_name a ++ ", " ++ nl
        ++ pass_name b ++ ", " ++ nl ++ pass_name a.
Proof.
  split.
  - apply watch_pass_pipeline_frame.
  - destruct (watch_pass_pipeline_frame (with_pass_pipeline self [a; b; a]))
      as (_ & _ & -> & _).
    reflexivity.
Qed.

(** C9.  Selecting a registered pass appends that one pass class to the end
    of the pipeline and keeps the entries before it, whether or not the class
    is in the pipeline already; [clear_passes] empties the pipeline, also at
    the end of any run of messages; and every message leaves the pipeline as
    it was, appends one class to it, or is [clear_passes]. *)
Theorem pass_pipeline_append_and_clear (self : InputApp) (selected_pass : string) :
  In selected_pass (map fst ALL_PASSES) ->
  (exists value,
     In value get_all_passes /\ pass_name value = selected_pass /\
     pass_pipeline (snd (update_pass_pipeline self selected_pass))
       = (pass_pipeline self ++ [value])%list) /\
  pass_pipeline (snd (clear_passes self)) = [] /\
  (forall evs,
     pass_pipeline (snd (run (evs ++ [Pressed_clear_passes]) self)) = []) /\
  (forall ev,
     pass_pipeline (snd (handle ev self)) = pass_pipeline self \/
     (exists value, In value get_all_passes /\
        pass_pipeline (snd (handle ev self)) = (pass_pipeline self ++ [value])%list) \/
     (ev = Pressed_clear_passes /\ pass_pipeline (snd (handle ev self)) = [])).
Proof.
  intros Hin. split; [| split; [| split]].
  - destruct (update_pass_pipeline_loop_pipeline self selected_pass ALL_PASSES)
      as [Happend _].
    destruct (Happend Hin) as (value & Hvalue & Hpipeline).
    apply ALL_PASSES_In in Hvalue. destruct Hvalue as [Hreg ->].
    exists value. auto.
  - apply set_pass_pipeline_pipeline.
  - intros evs. rewrite run_app. simpl.
    destruct (clear_passes (snd (run evs self))) as [l self'] eqn:Hclear.
    simpl. change self' with (snd (l, self')). rewrite <- Hclear.
    apply set_pass_pipeline_pipeline.
  - intros ev. apply handle_pipeline.
Qed.

(** C10.  In every state the application reaches, the text [copy_query]
    hands to the pasteboard is the text the label shows, and it is the text
    [watch_pass_pipeline] computes for the label from the same pipeline. *)
Theorem copy_query_is_label (self : InputApp) :
  reachable self ->
  pasteboard (copy_query self) = Some (selected_query_label self) /\
  pasteboard (copy_query self)
    = Some (selected_query_label (snd (watch_pass_pipeline self))).
Proof.
  intros Hreach. destruct (reachable_views self Hreach) as [Hlabel _].
  destruct (watch_pass_pipeline_frame self) as (_ & _ & -> & _).
  rewrite Hlabel. split; reflexivity.
Qed.

(** ** Further properties of the application *)

(** *** The registry of passes and the list view *)

Lemma insert_sorted_Permutation (x : string * ModulePass)
    (l : list (string * ModulePass)) :
  Permutation (insert_sorted x l) (x :: l).
Proof.
  induction l as [| y l IH]; simpl.
  - apply Permutation_refl.
  - destruct (String.leb (fst x) (fst y)).
    + apply Permutation_refl.
    + eapply perm_trans; [apply perm_skip, IH | apply perm_swap].
Qed.

Lemma sorted_Permutation (l : list (string * ModulePass)) :
  Permutation (sorted l) l.
Proof.
  induction l as [| x l IH]; simpl.
  - apply perm_nil.
  - eapply perm_trans; [apply insert_sorted_Permutation | apply perm_skip, IH].
Qed.

Local Abbreviation name_le :=
  (fun x y : string * ModulePass => String.leb (fst x) (fst y) = true).

Lemma insert_sorted_HdRel (x y : string * ModulePass)
    (l : list (string * ModulePass)) :
  name_le y x -> HdRel name_le y l -> HdRel name_le y (insert_sorted x l).
Proof.
  intros Hyx Hhd. destruct l as [| z l]; simpl.
  - constructor. exact Hyx.
  - destruct (String.leb (fst x) (fst z)); constructor.
    + exact Hyx.
    + inversion Hhd; assumption.
Qed.

Lemma insert_sorted_Sorted (x : string * ModulePass)
    (l : list (string * ModulePass)) :
  Sorted name_le l -> Sorted name_le (insert_sorted x l).
Proof.
  induction 1 as [| y l Hsorted IH Hhd]; simpl.
  - repeat constructor.
  - destruct (String.leb (fst x) (fst y)) eqn:Hxy.
    + constructor; [constructor; assumption | constructor; exact Hxy].
    + constructor; [exact IH |].
      apply insert_sorted_HdRel; [| exact Hhd].
      destruct (String.leb_total (fst x) (fst y)) as [H | H]; [congruence | exact H].
Qed.

Lemma on_mount_loop_spec (passes : list (string * ModulePass))
    (passes_list_view : list string) :
  on_mount_loop passes_list_view passes
    = (passes_list_view ++ map fst passes)%list.
Proof.
  revert passes_list_view.
  induction passes as [| [n v] rest IH]; intros passes_list_view; simpl.
  - symmetry. apply app_nil_r.
  - rewrite IH, <- app_assoc. reflexivity.
Qed.

(** X1.  [ALL_PASSES] holds every class of [get_all_passes()] once for each
    time it is listed there, under its own name, in ascending order of the
    names; the list view that [on_mount] fills shows these names in that
    order. *)
Theorem ALL_PASSES_sorted_registry :
  Permutation ALL_PASSES (map (fun p => (pass_name p, p)) get_all_passes) /\
  Sorted (fun x y => String.leb (fst x) (fst y) = true) ALL_PASSES /\
  on_mount_passes_list_view = map fst ALL_PASSES /\
  Permutation on_mount_passes_list_view (map pass_name get_all_passes).
Proof.
  assert (Hperm : Permutation ALL_PASSES
                    (map (fun p => (pass_name p, p)) get_all_passes))
    by apply sorted_Permutation.
  assert (Hview : on_mount_passes_list_view = map fst ALL_PASSES)
    by apply on_mount_loop_spec.
  split; [exact Hperm |]. split; [| split; [exact Hview |]].
  - clear Hperm Hview. unfold ALL_PASSES, sorted.
    induction (map (fun p => (pass_name p, p)) get_all_passes) as [| x l IH];
      simpl; [constructor | apply insert_sorted_Sorted, IH].
  - rewrite Hview.
    eapply perm_trans; [apply Permutation_map, Hperm |].
    rewrite map_map. simpl. apply Permutation_refl.
Qed.

(** X2.  Selecting any entry the list view shows appends one registered pass
    class of that name to the end of the pipeline. *)
Theorem list_view_entry_appends_pass (self : InputApp) (name : string) :
  In name on_mount_passes_list_view ->
  exists value,
    In value get_all_passes /\ pass_name value = name /\
    pass_pipeline (snd (update_pass_pipeline self name))
      = (pass_pipeline self ++ [value])%list.
Proof.
  unfold on_mount_passes_list_view. rewrite on_mount_loop_spec. simpl.
  intros Hin.
  destruct (update_pass_pipeline_loop_pipeline self name ALL_PASSES) as [Happend _].
  destruct (Happend Hin) as (value & Hvalue & Hpipeline).
  apply ALL_PASSES_In in Hvalue. destruct Hvalue as [Hreg ->].
  exists value. auto.
Qed.

(** X3.  A selection whose name is no registered pass changes nothing at all
    and calls no service. *)
Theorem update_pass_pipeline_unregistered (self : InputApp) (name : string) :
  ~ In name (map fst ALL_PASSES) ->
  update_pass_pipeline self name = ([], self).
Proof.
  unfold update_pass_pipeline.
  induction ALL_PASSES as [| [n v] rest IH]; simpl; intros Hout.
  - reflexivity.
  - destruct (String.eqb_spec n name) as [-> | Hne].
    + exfalso. apply Hout. auto.
    + apply IH. intros Hin. apply Hout. auto.
Qed.

Lemma app_singleton_neq {A : Type} (l : list A) (a : A) : l <> (l ++ [a])%list.
Proof.
  intros H. apply (f_equal (@length A)) in H. rewrite length_app in H.
  simpl in H. lia.
Qed.

(** X4.  Selecting a registered pass sets the label to the query of the longer
    pipeline and then recomputes the module once, on the unchanged input and
    the longer pipeline. *)
Theorem update_pass_pipeline_recomputes (self : InputApp) (name : string) :
  In name (map fst ALL_PASSES) ->
  exists value,
    In (name, value) ALL_PASSES /\
    update_pass_pipeline self name
      = update_current_module
          (with_label
             (with_pass_pipeline self (pass_pipeline self ++ [value])%list)
             ("xdsl-opt -p " ++ nl
                ++ join (", " ++ nl)
                     (map pass_name (pass_pipeline self ++ [value])%list))).
Proof.
  unfold update_pass_pipeline.
  induction ALL_PASSES as [| [n v] rest IH]; simpl; intros Hin.
  - contradiction.
  - destruct (String.eqb_spec n name) as [-> | Hne].
    + exists v. split; [auto |].
      unfold set_pass_pipeline.
      destruct (list_eq_dec ModulePass_eq_dec (pass_pipeline self)
                  (pass_pipeline self ++ [v])) as [Heq | _].
      * exfalso. exact (app_singleton_neq _ _ Heq).
      * reflexivity.
    + destruct Hin as [Heq | Hin]; [contradiction |].
      destruct (IH Hin) as (value & Hvalue & Hrun).
      exists value. auto.
Qed.

(** *** The stored module, the texts shown and the recomputations *)

(** What a call of [update_current_module] stores for an input text and a
    pipeline. *)
Local Abbreviation computed input_text pipeline :=
  (if input_text =? "" then CM_None
   else match Exec.result (try_block input_text pipeline) with
        | inr module => CM_ModuleOp module
        | inl e => CM_Exception e
        end).

Lemma update_current_module_computed (self : InputApp) :
  current_module (snd (update_current_module self))
    = computed (input_text_area (snd (update_current_module self)))
        (pass_pipeline (snd (update_current_module self))).
Proof.
  destruct (update_current_module_frame self) as (-> & -> & _).
  apply update_current_module_result.
Qed.

Lemma set_pass_pipeline_computed (self : InputApp) (v : list ModulePass) :
  current_module self = computed (input_text_area self) (pass_pipeline self) ->
  current_module (snd (set_pass_pipeline self v))
    = computed (input_text_area (snd (set_pass_pipeline self v)))
        (pass_pipeline (snd (set_pass_pipeline self v))).
Proof.
  intros Hself. unfold set_pass_pipeline.
  destruct (list_eq_dec ModulePass_eq_dec (pass_pipeline self) v); simpl.
  - exact Hself.
  - unfold watch_pass_pipeline. apply update_current_module_computed.
Qed.

Lemma reachable_computed (self : InputApp) :
  reachable self ->
  current_module self = computed (input_text_area self) (pass_pipeline self).
Proof.
  induction 1 as [| ev self Hreach IH].
  - unfold mounted, watch_pass_pipeline. apply update_current_module_computed.
  - destruct ev as [name | text | | | | | |]; cbn [handle snd].
    + unfold update_pass_pipeline.
      induction ALL_PASSES as [| [n v] rest IHrest]; simpl; [exact IH |].
      destruct (n =? name); [apply set_pass_pipeline_computed, IH | exact IHrest].
    + apply update_current_module_computed.
    + apply update_current_module_computed.
    + exact IH.
    + exact IH.
    + apply set_pass_pipeline_computed, IH.
    + exact IH.
    + exact IH.
Qed.

(** X5.  In every state the application reaches, [current_module] is what
    [update_current_module] computes from the input text and the pipeline the
    state holds, never the result of older ones; it is [None] exactly when
    the input text is empty. *)
Theorem current_module_is_never_stale (self : InputApp) :
  reachable self ->
  current_module self = current_module (snd (update_current_module self)) /\
  (current_module self = CM_None <-> input_text_area self = "").
Proof.
  intros Hreach. pose proof (reachable_computed self Hreach) as Hcm.
  destruct (update_current_module_result self) as [-> _].
  split; [exact Hcm |]. rewrite Hcm.
  destruct (String.eqb_spec (input_text_area self) "") as [Heq | Hne].
  - tauto.
  - split; [| contradiction]. destruct (Exec.result _); discriminate.
Qed.

(** X6.  In every state the application reaches, the text loaded in the
    output area is the text of the current value of [current_module], and
    [copy_output] hands to the pasteboard what the widget gives back for that
    text. *)
Theorem output_is_never_stale (self : InputApp) :
  reachable self ->
  output_text_area self
    = match current_module self with
      | CM_None => "No input"
      | CM_Exception e => Printer_print (inl e)
      | CM_ModuleOp m => Printer_print (inr m)
      end /\
  pasteboard (copy_output self)
    = Some (TextArea_text
              match current_module self with
              | CM_None => "No input"
              | CM_Exception e => Printer_print (inl e)
              | CM_ModuleOp m => Printer_print (inr m)
              end).
Proof.
  intros Hreach. destruct (reachable_views self Hreach) as [_ Hout].
  split; [exact Hout |]. unfold copy_output. simpl. rewrite Hout. reflexivity.
Qed.

Lemma update_current_module_log (self : InputApp) :
  fst (update_current_module self) = [] \/
  input_text_area (snd (update_current_module self)) <> "" /\
  fst (update_current_module self)
    = Exec.log (try_block (input_text_area (snd (update_current_module self)))
                  (pass_pipeline (snd (update_current_module self)))).
Proof.
  destruct (update_current_module_frame self) as (-> & -> & _).
  destruct (update_current_module_result self) as [_ ->].
  destruct (String.eqb_spec (input_text_area self) "") as [Heq | Hne]; auto.
Qed.

Lemma set_pass_pipeline_log (self : InputApp) (v : list ModulePass) :
  fst (set_pass_pipeline self v) = [] \/
  input_text_area (snd (set_pass_pipeline self v)) <> "" /\
  fst (set_pass_pipeline self v)
    = Exec.log (try_block (input_text_area (snd (set_pass_pipeline self v)))
                  (pass_pipeline (snd (set_pass_pipeline self v)))).
Proof.
  unfold set_pass_pipeline.
  destruct (list_eq_dec ModulePass_eq_dec (pass_pipeline self) v); simpl.
  - left. reflexivity.
  - unfold watch_pass_pipeline. apply update_current_module_log.
Qed.

(** X7.  A message makes the calls of at most one recomputation: none at all,
    or those of one [try] block on the input text and the pipeline the
    application holds after the message; none when that input text is
    empty. *)
Theorem handle_recomputes_at_most_once (ev : Event) (self : InputApp) :
  fst (handle ev self) = [] \/
  input_text_area (snd (handle ev self)) <> "" /\
  fst (handle ev self)
    = Exec.log (try_block (input_text_area (snd (handle ev self)))
                  (pass_pipeline (snd (handle ev self)))).
Proof.
  destruct ev as [name | text | | | | | |]; cbn [handle].
  - unfold update_pass_pipeline.
    induction ALL_PASSES as [| [n v] rest IH]; simpl; [auto |].
    destruct (n =? name); [apply set_pass_pipeline_log | exact IH].
  - apply update_current_module_log.
  - apply update_current_module_log.
  - left. reflexivity.
  - left. reflexivity.
  - apply set_pass_pipeline_log.
  - left. reflexivity.
  - left. reflexivity.
Qed.

Lemma instantiations_are_no_applications (classes : list ModulePass) :
  filter is_apply (map call_instantiate classes) = [].
Proof.
  induction classes as [| q classes IH]; simpl; auto.
Qed.

(** X8.  When the input parses and a class of the pipeline fails to
    instantiate, [current_module] is the exception of that instantiation and
    the output area shows its text; the classes up to the failing one were
    instantiated, and no pass was applied, not even those listed before the
    failing class. *)
Theorem failing_instantiation_applies_no_pass (self : InputApp)
    (ctx1 : MLContext) (module : ModuleOp) (pre post : list ModulePass)
    (p : ModulePass) (instances : list PassInstance) (e : Exn) :
  input_text_area self <> "" ->
  parse_module loaded_context (input_text_area self) = (ctx1, inr module) ->
  pass_pipeline self = (pre ++ p :: post)%list ->
  Exec.result (instantiate_all pre) = inr instances ->
  instantiate p = inl e ->
  current_module (snd (update_current_module self)) = CM_Exception e /\
  output_text_area (snd (update_current_module self)) = Printer_print (inl e) /\
  fst (update_current_module self)
    = (setup_calls (input_text_area self)
         ++ map call_instantiate (pre ++ [p]))%list /\
  filter is_apply (fst (update_current_module self)) = [].
Proof.
  intros Hne Hparse Hpipeline Hpre Hp.
  assert (Htry : try_block (input_text_area self) (pass_pipeline self)
                 = ((setup_calls (input_text_area self)
                       ++ map call_instantiate (pre ++ [p]))%list, inl e)).
  { rewrite try_block_unfold, Hparse, Hpipeline.
    rewrite (instantiate_all_failure pre post p instances e Hpre Hp).
    reflexivity. }
  assert (Hcaught := exception_is_caught self e Hne).
  rewrite Htry in Hcaught. destruct (Hcaught eq_refl) as [Hcm Hout].
  rewrite (update_current_module_nonempty self Hne), Htry.
  unfold Exec.log. cbn [fst snd].
  rewrite (update_current_module_nonempty self Hne), Htry in Hcm, Hout.
  split; [exact Hcm |]. split; [exact Hout |]. split; [reflexivity |].
  rewrite filter_app.
  destruct (setup_calls_no_pass_call (input_text_area self)) as [_ ->].
  apply instantiations_are_no_applications.
Qed.

Lemma set_pass_pipeline_frame (self : InputApp) (v : list ModulePass) :
  input_text_area (snd (set_pass_pipeline self v)) = input_text_area self /\
  pasteboard (snd (set_pass_pipeline self v)) = pasteboard self /\
  (pass_pipeline (snd (set_pass_pipeline self v)) = pass_pipeline self ->
   selected_query_label (snd (set_pass_pipeline self v))
     = selected_query_label self).
Proof.
  pose proof (set_pass_pipeline_pipeline self v) as Hv.
  unfold set_pass_pipeline in *.
  destruct (list_eq_dec ModulePass_eq_dec (pass_pipeline self) v) as [Heq | Hne];
    simpl in *.
  - auto.
  - destruct (watch_pass_pipeline_frame (with_pass_pipeline self v))
      as (_ & -> & _ & ->).
    repeat split. intros Hsame. exfalso. apply Hne. congruence.
Qed.

(** X9.  A message changes the input text only when it is an edit, which
    stores the new text, or [clear_input], which empties it; the label
    changes only together with the pipeline; the pasteboard changes only on
    [copy_output] and [copy_query]. *)
Theorem handle_frame (ev : Event) (self : InputApp) :
  (input_text_area (snd (handle ev self)) = input_text_area self \/
   (exists text, ev = TextArea_Changed text /\
      input_text_area (snd (handle ev self)) = text) \/
   (ev = Pressed_clear_input /\ input_text_area (snd (handle ev self)) = "")) /\
  (pass_pipeline (snd (handle ev self)) = pass_pipeline self ->
   selected_query_label (snd (handle ev self)) = selected_query_label self) /\
  (pasteboard (snd (handle ev self)) = pasteboard self \/
   ev = Pressed_copy_output \/ ev = Pressed_copy_query).
Proof.
  destruct ev as [name | text | | | | | |]; cbn [handle snd].
  - unfold update_pass_pipeline.
    induction ALL_PASSES as [| [n v] rest IH]; simpl; [auto |].
    destruct (n =? name); [| exact IH].
    destruct (set_pass_pipeline_frame self (pass_pipeline self ++ [v]))
      as (Hin & Hpb & Hlabel).
    auto.
  - destruct (update_current_module_frame (with_input_text self text))
      as (_ & Hin & Hlabel & Hpb).
    split; [right; left; exists text; auto |]. split; [intros _; exact Hlabel |].
    left. exact Hpb.
  - unfold clear_input.
    destruct (update_current_module_frame (with_input_text self ""))
      as (_ & Hin & Hlabel & Hpb).
    split; [right; right; auto |]. split; [intros _; exact Hlabel |].
    left. exact Hpb.
  - auto.
  - auto.
  - destruct (set_pass_pipeline_frame self []) as (Hin & Hpb & Hlabel). auto.
  - auto.
  - auto.
Qed.

(** X10.  In every state the application reaches, [clear_input] empties the
    input, stores [None], shows ["No input"], calls no service, and keeps the
    pipeline and its label. *)
Theorem clear_input_shows_no_input (self : InputApp) :
  reachable self ->
  fst (clear_input self) = [] /\
  input_text_area (snd (clear_input self)) = "" /\
  current_module (snd (clear_input self)) = CM_None /\
  output_text_area (snd (clear_input self)) = "No input" /\
  pass_pipeline (snd (clear_input self)) = pass_pipeline self /\
  selected_query_label (snd (clear_input self)) = selected_query_label self.
Proof.
  intros Hreach.
  assert (Hcm : current_module (snd (clear_input self)) = CM_None).
  { unfold clear_input, update_current_module. simpl. apply current_module_set. }
  destruct (reachable_views _ (reachable_handle Pressed_clear_input self Hreach))
    as [_ Hout].
  cbn [handle] in Hout. rewrite Hcm in Hout.
  unfold clear_input in *.
  destruct (update_current_module_frame (with_input_text self ""))
    as (Hpipeline & Hin & Hlabel & _).
  repeat split; auto.
Qed.

(** X11.  In every state the application reaches, [clear_passes] empties the
    pipeline, sets the label to ["xdsl-opt -p "] and a line break, keeps the
    input text, and leaves in [current_module] what the input text gives with
    no pass. *)
Theorem clear_passes_resets_query (self : InputApp) :
  reachable self ->
  pass_pipeline (snd (clear_passes self)) = [] /\
  selected_query_label (snd (clear_passes self)) = "xdsl-opt -p " ++ nl /\
  input_text_area (snd (clear_passes self)) = input_text_area self /\
  current_module (snd (clear_passes self))
    = current_module (snd (update_current_module (with_pass_pipeline self []))).
Proof.
  intros Hreach.
  pose proof (reachable_handle Pressed_clear_passes self Hreach) as Hafter.
  cbn [handle] in Hafter.
  pose proof (set_pass_pipeline_pipeline self []) as Hpipeline.
  destruct (set_pass_pipeline_frame self []) as (Hin & _ & _).
  fold (clear_passes self) in Hpipeline, Hin.
  destruct (reachable_views _ Hafter) as [Hlabel _].
  pose proof (reachable_computed _ Hafter) as Hcm.
  rewrite Hpipeline in Hlabel, Hcm. rewrite Hin in Hcm.
  split; [exact Hpipeline |]. split; [exact Hlabel |]. split; [exact Hin |].
  destruct (update_current_module_result (with_pass_pipeline self [])) as [-> _].
  exact Hcm.
Qed.

Lemma update_current_module_form (self : InputApp) :
  update_current_module self
    = (if input_text_area self =? "" then []
       else Exec.log (try_block (input_text_area self) (pass_pipeline self)),
       set_current_module self
         (computed (input_text_area self) (pass_pipeline self))).
Proof.
  unfold update_current_module, Exec.log, Exec.result.
  destruct (input_text_area self =? ""); [reflexivity |].
  destruct (try_block _ _) as [l [e | m]]; reflexivity.
Qed.

Lemma set_current_module_idempotent (self : InputApp) (v : CurrentModule) :
  set_current_module (set_current_module self v) v = set_current_module self v.
Proof.
  destruct self as [cm pipeline input output label pb dk ex].
  destruct cm, v; reflexivity.
Qed.

(** X12.  Running [update_current_module] again right after itself makes the
    same calls and leaves the application exactly as the first run left it. *)
Theorem update_current_module_idempotent (self : InputApp) :
  update_current_module (snd (update_current_module self))
    = update_current_module self.
Proof.
  rewrite (update_current_module_form (snd (update_current_module self))).
  destruct (update_current_module_frame self) as (-> & -> & _).
  rewrite (update_current_module_form self). cbn [snd].
  rewrite set_current_module_idempotent. reflexivity.
Qed.

End Properties.

(** ** The properties on the small instance *)

Import Toy.

(** The input ["m"] with the passes [A], [fails], [B] selected, first on the
    empty store, then on a store that holds the objects two earlier calls
    left, in an application that has shown other results since. *)
Lemma store_update_current_module_deterministic_witness :
  exists st1' st2' l self1' self2',
    store_update_current_module (app "m" [pass_A; pass_fails; pass_B])
      (mkStore (srv := services) [] [])
      = Some (st1', (l, self1')) /\
    store_update_current_module
      (snd (run [Key_d; Pressed_copy_output]
              (snd (update_current_module
                      (app "m" [pass_A; pass_fails; pass_B])))))
      (mkStore (srv := services)
         [[1; 2]; [1; 2; 7]] [["other"; "B"]; ["m"; "A"; "half"]])
      = Some (st2', (l, self2')) /\
    current_module self1' = current_module self2'.
Proof.
  apply (@store_update_current_module_deterministic services); reflexivity.
Defined.

(** The second of three passes fails: the output is the text of the
    exception, and the third pass is not applied. *)
Lemma failing_pass_gives_exception_witness :
  current_module (snd (update_current_module (app "m" [pass_A; pass_fails; pass_B])))
    = CM_Exception (srv := services) "pass failed" /\
  output_text_area (snd (update_current_module (app "m" [pass_A; pass_fails; pass_B])))
    = "pass failed" /\
  filter is_apply (fst (update_current_module (app "m" [pass_A; pass_fails; pass_B])))
    = [call_apply (srv := services) pass_A [1; 2] ["m"];
       call_apply (srv := services) pass_fails [1; 2] ["m"; "A"]].
Proof.
  apply (@failing_pass_gives_exception services
           (app "m" [pass_A; pass_fails; pass_B])
           [1; 2] [1; 2] [1; 2] ["m"] ["m"; "A"] ["m"; "A"; "half"]
           [pass_A] [pass_B] pass_fails "pass failed"
           [call_apply (srv := services) pass_A [1; 2] ["m"]]).
  - discriminate.
  - reflexivity.
  - reflexivity.
  - reflexivity.
  - reflexivity.
Defined.

Lemma parse_failure_runs_no_pass_witness :
  current_module (snd (update_current_module (app "bad" [pass_A; pass_B])))
    = CM_Exception (srv := services) "parse error" /\
  fst (update_current_module (app "bad" [pass_A; pass_B]))
    = setup_calls (srv := services) "bad" /\
  existsb is_instantiate (fst (update_current_module (app "bad" [pass_A; pass_B])))
    = false /\
  existsb is_apply (fst (update_current_module (app "bad" [pass_A; pass_B])))
    = false.
Proof.
  apply (@parse_failure_runs_no_pass services (app "bad" [pass_A; pass_B])
           [1; 2] "parse error").
  - discriminate.
  - reflexivity.
Defined.

(** C5, as the claim has it, fails when the input does not parse: the
    pipeline holds the pass [A], and no pass is instantiated. *)
Lemma no_instantiation_after_parse_failure :
  input_text_area (app "bad" [pass_A]) <> "" /\
  fst (update_current_module (app "bad" [pass_A]))
    = [call_MLContext (srv := services) true; call_get_all_dialects;
       call_load_dialect (srv := services) [] 1;
       call_load_dialect (srv := services) [1] 2;
       call_Parser (srv := services) [1; 2] "bad"; call_parse_module] /\
  filter is_instantiate (fst (update_current_module (app "bad" [pass_A])))
    <> map call_instantiate (pass_pipeline (app "bad" [pass_A])).
Proof.
  split; [discriminate |]. split; [reflexivity | discriminate].
Qed.

(** On a store with an older context: one new context, then both passes
    instantiated, then both applied, the second to what the first left. *)
Lemma fresh_context_then_passes_in_order_witness :
  (exists st',
     store_update_current_module (app "m" [pass_A; pass_B])
       (mkStore (srv := services) [[1; 2; 7]] [])
       = Some (st', update_current_module (app "m" [pass_A; pass_B])) /\
     length (contexts st') = 2 /\
     firstn 1 (contexts st') = [[1; 2; 7]]) /\
  fst (update_current_module (app "m" [pass_A; pass_B]))
    = (setup_calls (srv := services) "m"
         ++ [call_instantiate (srv := services) pass_A;
             call_instantiate (srv := services) pass_B]
         ++ [call_apply (srv := services) pass_A [1; 2] ["m"];
             call_apply (srv := services) pass_B [1; 2] ["m"; "A"]])%list /\
  current_module (snd (update_current_module (app "m" [pass_A; pass_B])))
    = CM_ModuleOp (srv := services) ["m"; "A"; "B"].
Proof.
  destruct (@fresh_context_then_passes_in_order services
              (app "m" [pass_A; pass_B])) as [Hstore Hcalls].
  - discriminate.
  - split; [| exact Hcalls].
    destruct (Hstore (mkStore (srv := services) [[1; 2; 7]] []))
      as (st' & Hrun & Hnew & Hcontexts & _).
    exists st'. split; [exact Hrun |]. split; [exact Hnew | exact Hcontexts].
Defined.

Lemma empty_pipeline_keeps_parsed_module_witness :
  current_module (snd (update_current_module (app "m" [])))
    = CM_ModuleOp (srv := services) ["m"] /\
  output_text_area (snd (update_current_module (app "m" []))) = "m" /\
  fst (update_current_module (app "m" [])) = setup_calls (srv := services) "m".
Proof.
  apply (@empty_pipeline_keeps_parsed_module services (app "m" []) [1; 2] ["m"]).
  - discriminate.
  - reflexivity.
  - reflexivity.
Defined.

(** C8, as the claim has it, fails on the pipeline [A, B, A]: a line break
    follows ["xdsl-opt -p "], so no separator makes the label that text
    followed by the joined names. *)
Lemma label_is_not_template_then_names :
  selected_query_label (snd (watch_pass_pipeline (app "" [pass_A; pass_B; pass_A])))
    = "xdsl-opt -p " ++ nl ++ "A, " ++ nl ++ "B, " ++ nl ++ "A" /\
  ~ (exists sep,
       selected_query_label
         (snd (watch_pass_pipeline (app "" [pass_A; pass_B; pass_A])))
       = "xdsl-opt -p "
           ++ join sep (map (pass_name (CompilerServices := services))
                          [pass_A; pass_B; pass_A])).
Proof.
  split; [reflexivity |].
  intros [sep H]. vm_compute in H. discriminate H.
Qed.

Lemma pass_pipeline_append_and_clear_witness :
  exists value,
    pass_name (CompilerServices := services) value = "B" /\
    pass_pipeline (snd (update_pass_pipeline (app "" [pass_A; pass_B]) "B"))
      = [pass_A; pass_B; value].
Proof.
  destruct (@pass_pipeline_append_and_clear services (app "" [pass_A; pass_B]) "B")
    as ((value & _ & Hname & Hpipeline) & _).
  - vm_compute. auto.
  - exists value. split; [exact Hname | exact Hpipeline].
Defined.

Lemma copy_query_is_label_witness :
  pasteboard
    (copy_query (snd (handle (ListView_Selected "A") (mounted (srv := services)))))
    = Some (selected_query_label
              (snd (handle (ListView_Selected "A") (mounted (srv := services))))).
Proof.
  apply (@copy_query_is_label services
           (snd (handle (ListView_Selected "A") (mounted (srv := services))))).
  apply reachable_handle, reachable_mounted.
Defined.

(** *** The further properties on the small instance *)

(** The application after the pass [A] was selected and ["m"] typed. *)
Definition after_A_and_m : @InputApp services :=
  snd (handle (TextArea_Changed "m")
         (snd (handle (ListView_Selected "A") (mounted (srv := services))))).

Lemma after_A_and_m_reachable : reachable after_A_and_m.
Proof.
  unfold after_A_and_m. apply reachable_handle, reachable_handle, reachable_mounted.
Qed.

Lemma list_view_entry_appends_pass_witness :
  exists value,
    pass_name (CompilerServices := services) value = "fails" /\
    pass_pipeline (snd (update_pass_pipeline (app "" [pass_A]) "fails"))
      = [pass_A; value].
Proof.
  destruct (@list_view_entry_appends_pass services (app "" [pass_A]) "fails")
    as (value & _ & Hname & Hpipeline).
  - vm_compute. auto 10.
  - exists value. split; [exact Hname | exact Hpipeline].
Defined.

Lemma update_pass_pipeline_unregistered_witness :
  update_pass_pipeline (app "m" [pass_A]) "nope" = ([], app "m" [pass_A]).
Proof.
  apply (@update_pass_pipeline_unregistered services (app "m" [pass_A]) "nope").
  vm_compute. intuition discriminate.
Defined.

Lemma update_pass_pipeline_recomputes_witness :
  exists value,
    In ("B", value) (ALL_PASSES (srv := services)) /\
    update_pass_pipeline (app "m" [pass_A]) "B"
      = update_current_module
          (with_label
             (with_pass_pipeline (app "m" [pass_A]) [pass_A; value])
             ("xdsl-opt -p " ++ nl
                ++ join (", " ++ nl)
                     (map (pass_name (CompilerServices := services))
                        [pass_A; value]))).
Proof.
  apply (@update_pass_pipeline_recomputes services (app "m" [pass_A]) "B").
  vm_compute. auto 10.
Defined.

Lemma current_module_is_never_stale_witness :
  current_module after_A_and_m
    = current_module (snd (update_current_module after_A_and_m)) /\
  (current_module after_A_and_m = CM_None <-> input_text_area after_A_and_m = "").
Proof.
  apply (@current_module_is_never_stale services after_A_and_m).
  apply after_A_and_m_reachable.
Defined.

Lemma output_is_never_stale_witness :
  output_text_area after_A_and_m = "m" ++ nl ++ "A" /\
  pasteboard (copy_output after_A_and_m) = Some ("m" ++ nl ++ "A").
Proof.
  apply (@output_is_never_stale services after_A_and_m).
  apply after_A_and_m_reachable.
Defined.

(** The second of three classes does not instantiate: no pass is applied. *)
Lemma failing_instantiation_applies_no_pass_witness :
  current_module
    (snd (update_current_module (app "m" [pass_A; pass_needs_args; pass_B])))
    = CM_Exception (srv := services) "missing argument" /\
  output_text_area
    (snd (update_current_module (app "m" [pass_A; pass_needs_args; pass_B])))
    = "missing argument" /\
  fst (update_current_module (app "m" [pass_A; pass_needs_args; pass_B]))
    = (setup_calls (srv := services) "m"
         ++ [call_instantiate (srv := services) pass_A;
             call_instantiate (srv := services) pass_needs_args])%list /\
  filter is_apply
    (fst (update_current_module (app "m" [pass_A; pass_needs_args; pass_B])))
    = [].
Proof.
  apply (@failing_instantiation_applies_no_pass services
           (app "m" [pass_A; pass_needs_args; pass_B])
           [1; 2] ["m"] [pass_A] [pass_B] pass_needs_args [pass_A]
           "missing argument").
  - discriminate.
  - reflexivity.
  - reflexivity.
  - reflexivity.
  - reflexivity.
Defined.

Lemma clear_input_shows_no_input_witness :
  fst (clear_input after_A_and_m) = [] /\
  input_text_area (snd (clear_input after_A_and_m)) = "" /\
  current_module (snd (clear_input after_A_and_m)) = CM_None /\
  output_text_area (snd (clear_input after_A_and_m)) = "No input" /\
  pass_pipeline (snd (clear_input after_A_and_m)) = pass_pipeline after_A_and_m /\
  selected_query_label (snd (clear_input after_A_and_m))
    = selected_query_label after_A_and_m.
Proof.
  apply (@clear_input_shows_no_input services after_A_and_m).
  apply after_A_and_m_reachable.
Defined.

Lemma clear_passes_resets_query_witness :
  pass_pipeline (snd (clear_passes after_A_and_m)) = [] /\
  selected_query_label (snd (clear_passes after_A_and_m)) = "xdsl-opt -p " ++ nl /\
  input_text_area (snd (clear_passes after_A_and_m)) = "m" /\
  current_module (snd (clear_passes after_A_and_m))
    = CM_ModuleOp (srv := services) ["m"].
Proof.
  apply (@clear_passes_resets_query services after_A_and_m).
  apply after_A_and_m_reachable.
Defined.
